(** * The statsd console server (pkg/statsd/console.go)

    A shallow embedding of [ConsoleServer]: the sharded delete, the fan-out /
    fan-in metric listing, the command table, the per-connection session and
    the accept loop.

    Conventions.
    - A Go [error] is [option error]; [None] is [nil].  Errors are compared
      by identity, as Go's [==] on the package-level error variables does:
      each such variable is a constructor of its own.
    - A [uint32] is an [N] with the wrap-around modulo [2^32] written out.
    - Shared mutable objects (the shards owned by the Dispatcher's workers,
      the context, connections, the log) live in one [World], threaded
      through a state monad [M]. *)

From Stdlib Require Import Ascii.
From stdpp Require Import gmap strings list pretty.

(** ** Errors *)

Inductive error :=
| Canceled            (* context.Canceled *)
| DeadlineExceeded    (* context.DeadlineExceeded *)
| errClientQuit       (* var errClientQuit = errors.New("client quit") *)
| OtherError (msg : string).  (* any other error value, with its text *)

#[global] Instance error_eq_dec : EqDecision error.
Proof. solve_decision. Defined.

(** [err.Error()], as [%v] prints it. *)
Definition error_text (e : error) : string :=
  match e with
  | Canceled => "context canceled"
  | DeadlineExceeded => "context deadline exceeded"
  | errClientQuit => "client quit"
  | OtherError msg => msg
  end.

(** ** Machine integers and formatting *)

Definition uint32_modulus : N := 2 ^ 32.

Definition wrap32 (n : N) : N := (n mod uint32_modulus)%N.

(** [atomic.AddUint32(&counter, i)] *)
Definition AddUint32 (counter i : N) : N := wrap32 (counter + i).

(** The verb [%d] of package fmt on an unsigned integer: its decimal digits. *)
Definition fmt_d (n : N) : string := pretty n.

(** The line feed that Go writes for [\n]. *)
Definition LF : string := String "010"%char EmptyString.

(** [const DefaultConsoleAddr = ":8126"] *)
Definition DefaultConsoleAddr : string := ":8126".

Section Console.

(** The aggregated value stored under a metric name; its representation is
    outside console.go. *)
Context {V : Type}.

(** Rendering of one collection by [fmt.Fprintln]'s default format, without
    the trailing newline. *)
Variable render : gmap string V → string.

(** ** Data model *)

(** Modelled from the spec: [gostatsd.MetricMap], the per-shard state, is
    declared outside console.go; it holds four independent collections, one
    per metric kind, each a mapping from metric name to aggregated value. *)
Record MetricMap := mkMetricMap {
  Counters : gmap string V;
  Timers : gmap string V;
  Gauges : gmap string V;
  Sets : gmap string V
}.

(** [mapperFunc], the type of functions from a pointer to a MetricMap to
    one of its [AggregatedMetrics] collections.
    console.go has exactly four mapper functions; each returns a reference
    to one collection of the shard, so a mapper is modelled by its name, with
    [select] reading through it and [assign] writing through it. *)
Inductive mapperFunc := getCounters | getTimers | getGauges | getSets.

Definition select (f : mapperFunc) (m : MetricMap) : gmap string V :=
  match f with
  | getCounters => Counters m
  | getSets => Sets m
  | getGauges => Gauges m
  | getTimers => Timers m
  end.

Definition assign (f : mapperFunc) (m : MetricMap) (c : gmap string V) : MetricMap :=
  match f with
  | getCounters => mkMetricMap c (Timers m) (Gauges m) (Sets m)
  | getTimers => mkMetricMap (Counters m) c (Gauges m) (Sets m)
  | getGauges => mkMetricMap (Counters m) (Timers m) c (Sets m)
  | getSets => mkMetricMap (Counters m) (Timers m) (Gauges m) c
  end.

(** Modelled from the spec: [AggregatedMetrics.Delete], declared outside
    console.go, removes the key from the collection; an absent key is
    silently ignored.  It reports nothing back to its caller. *)
Definition Metrics_Delete (k : string) (metrics : gmap string V) : gmap string V :=
  delete k metrics.

(** ** The Dispatcher's fan-out primitive *)

(** Modelled from the spec: [Dispatcher.Process], declared outside console.go,
    invokes the work function exactly once per worker, each against the shard
    that worker owns, in no particular order across workers.  The Dispatcher
    is the list of its workers' shards (worker [i] owns shard [i]); [order]
    is the order in which the workers get to run, and [S] is the state the
    work function shares across workers (what its closure captures). *)
Definition run_worker {S : Type} (work : nat → MetricMap → S → MetricMap * S)
    (st : list MetricMap * S) (workerId : nat) : list MetricMap * S :=
  match st.1 !! workerId with
  | Some m => let '(m', s') := work workerId m st.2 in (<[workerId := m']> st.1, s')
  | None => st
  end.

(** Modelled from the spec: the whole fan-out of [Dispatcher.Process],
    followed by the wait on the handle it returns: the workers of [order]
    have run, one after the other. *)
Definition Process {S : Type} (work : nat → MetricMap → S → MetricMap * S)
    (order : list nat) (workers : list MetricMap) (s : S) : list MetricMap * S :=
  foldl (run_worker work) (workers, s) order.

(** An order in which every worker runs exactly once. *)
Definition fair_order (order : list nat) (workers : list MetricMap) : Prop :=
  order ≡ₚ seq 0 (length workers).

(** ** ConsoleServer.delete *)

(** The loop [for _, k := range keys { metrics.Delete(k); i++ }] on one
    shard, with [var i uint32]. *)
Definition delete_loop (keys : list string) (metrics : gmap string V) : gmap string V * N :=
  foldl (λ '(metrics, i) k, (Metrics_Delete k metrics, wrap32 (i + 1))) (metrics, 0%N) keys.

(** The function handed to [aggr.Process], followed by the atomic addition
    to the shared counter. *)
Definition delete_work (keys : list string) (f : mapperFunc)
    (workerId : nat) (m : MetricMap) (counter : N) : MetricMap * N :=
  let '(metrics, i) := delete_loop keys (select f m) in
  (assign f m metrics, AddUint32 counter i).

(** [func (s *ConsoleServer) delete(ctx, keys, f) uint32]: fan out, wait for
    all workers, read the counter.  Returns the shards afterwards and the
    counter. *)
Definition delete_run (order : list nat) (keys : list string) (f : mapperFunc)
    (workers : list MetricMap) : list MetricMap * N :=
  Process (delete_work keys f) order workers 0%N.

(** ** ConsoleServer.printMetrics: the fan-out / fan-in read

    The goroutines of one call are the [N] workers, the supervisory goroutine
    and the caller.  Their interleaving is a sequence of atomic [action]s on a
    [pstate]; [step] says when an action is enabled and what it does. *)

(** [make(chan *bytes.Buffer, 16)] *)
Definition results_capacity : nat := 16.

(** Where a worker stands: its work function has not yet passed the [select];
    it has passed it (the buffer was sent or dropped) but the completion
    handle has not been told; or it has called [wg.Done]. *)
Inductive wstate := Queued | Exited | Finished.

#[global] Instance wstate_eq_dec : EqDecision wstate.
Proof. solve_decision. Defined.

(** The caller is in [for res := range results] or has returned. *)
Inductive cstate := Draining | Returned (out : string) (err : option error).

Inductive action :=
| Cancel          (* the environment cancels ctx *)
| Send (i : nat)  (* worker i: the select takes [results <- buf] *)
| Drop (i : nat)  (* worker i: the select takes [<-ctx.Done()] *)
| Done (i : nat)  (* worker i: the work function returned, [wg.Done()] *)
| Close           (* supervisor: [wg.Wait()] returned, [close(results)] *)
| Recv            (* caller: one iteration of the range loop, [buf.Write] *)
| Return.         (* caller: the range loop ends, [return buf.String(), nil] *)

#[global] Instance action_eq_dec : EqDecision action.
Proof. solve_decision. Defined.

Record pstate := mkPstate {
  workers : list wstate;
  wg : nat;                (* the WaitGroup counter *)
  results : list string;   (* the channel's buffer, oldest first *)
  closed : bool;           (* the channel is closed *)
  cancelled : bool;        (* ctx is done *)
  buf : string;            (* the caller's accumulating buffer *)
  caller : cstate;
  panicked : bool
}.

Definition set_workers (ws : list wstate) (s : pstate) : pstate :=
  mkPstate ws (wg s) (results s) (closed s) (cancelled s) (buf s) (caller s) (panicked s).
Definition set_wg (n : nat) (s : pstate) : pstate :=
  mkPstate (workers s) n (results s) (closed s) (cancelled s) (buf s) (caller s) (panicked s).
Definition set_results (r : list string) (s : pstate) : pstate :=
  mkPstate (workers s) (wg s) r (closed s) (cancelled s) (buf s) (caller s) (panicked s).
Definition set_closed (b : bool) (s : pstate) : pstate :=
  mkPstate (workers s) (wg s) (results s) b (cancelled s) (buf s) (caller s) (panicked s).
Definition set_cancelled (b : bool) (s : pstate) : pstate :=
  mkPstate (workers s) (wg s) (results s) (closed s) b (buf s) (caller s) (panicked s).
Definition set_buf (b : string) (s : pstate) : pstate :=
  mkPstate (workers s) (wg s) (results s) (closed s) (cancelled s) b (caller s) (panicked s).
Definition set_caller (c : cstate) (s : pstate) : pstate :=
  mkPstate (workers s) (wg s) (results s) (closed s) (cancelled s) (buf s) c (panicked s).
Definition set_panicked (b : bool) (s : pstate) : pstate :=
  mkPstate (workers s) (wg s) (results s) (closed s) (cancelled s) (buf s) (caller s) b.

(** The state right after [s.Dispatcher.Process] and [go func() {...}()].
    Modelled from the spec: [Dispatcher.Process], declared outside
    console.go, has handed the work function to every worker, cancelled
    context or not, and the completion handle it returns counts them all. *)
Definition init (n : nat) (ctx0 : bool) : pstate :=
  mkPstate (replicate n Queued) n [] false ctx0 "" Draining false.

(** One atomic action; [None] when it is not enabled.  [bufs !! i] is the
    buffer worker [i] serialized.  Go panics on a send on a closed channel
    and on a negative WaitGroup counter; a panic stops everything. *)
Definition step (bufs : list string) (a : action) (s : pstate) : option pstate :=
  if panicked s then None else
  match a with
  | Cancel => if cancelled s then None else Some (set_cancelled true s)
  | Send i =>
      match workers s !! i, bufs !! i with
      | Some Queued, Some b =>
          if closed s then Some (set_panicked true s)
          else if decide (length (results s) < results_capacity)
          then Some (set_workers (<[i := Exited]> (workers s)) (set_results (results s ++ [b]) s))
          else None
      | _, _ => None
      end
  | Drop i =>
      match workers s !! i with
      | Some Queued =>
          if cancelled s then Some (set_workers (<[i := Exited]> (workers s)) s) else None
      | _ => None
      end
  | Done i =>
      match workers s !! i with
      | Some Exited =>
          match wg s with
          | 0 => Some (set_panicked true s)
          | S n => Some (set_workers (<[i := Finished]> (workers s)) (set_wg n s))
          end
      | _ => None
      end
  | Close =>
      match wg s with
      | 0 => if closed s then None else Some (set_closed true s)
      | S _ => None
      end
  | Recv =>
      match caller s, results s with
      | Draining, b :: rest => Some (set_results rest (set_buf (buf s +:+ b) s))
      | _, _ => None
      end
  | Return =>
      match caller s, results s with
      | Draining, [] => if closed s then Some (set_caller (Returned (buf s) None) s) else None
      | _, _ => None
      end
  end.

(** A sequence of actions, each enabled in turn. *)
Fixpoint steps (bufs : list string) (tr : list action) (s : pstate) : option pstate :=
  match tr with
  | [] => Some s
  | a :: tr' =>
      match step bufs a s with
      | Some s' => steps bufs tr' s'
      | None => None
      end
  end.

(** Following a proposed schedule: the actions that are not enabled when
    their turn comes are skipped.  Returns the actions taken and the state
    reached. *)
Fixpoint follow (bufs : list string) (sched : list action) (s : pstate) : list action * pstate :=
  match sched with
  | [] => ([], s)
  | a :: sched' =>
      match step bufs a s with
      | Some s' => let '(tr, s'') := follow bufs sched' s' in (a :: tr, s'')
      | None => follow bufs sched' s
      end
  end.

(** When the proposed schedule is used up the goroutines keep running; any
    fixed choice among the enabled actions will do, this is one. *)
Definition next (s : pstate) : option action :=
  match caller s with
  | Returned _ _ => None
  | Draining =>
      match list_find (λ w, w = Queued) (workers s) with
      | Some (i, _) =>
          Some (if decide (length (results s) < results_capacity) then Send i else Recv)
      | None =>
          match list_find (λ w, w = Exited) (workers s) with
          | Some (i, _) => Some (Done i)
          | None =>
              if closed s
              then Some (match results s with [] => Return | _ :: _ => Recv end)
              else Some Close
          end
      end
  end.

Fixpoint finish (bufs : list string) (fuel : nat) (s : pstate) : list action * pstate :=
  match fuel with
  | 0 => ([], s)
  | S fuel' =>
      match next s with
      | None => ([], s)
      | Some a =>
          match step bufs a s with
          | Some s' => let '(tr, s'') := finish bufs fuel' s' in (a :: tr, s'')
          | None => ([], s)
          end
      end
  end.

(** A bound on the number of actions a call can still take. *)
Definition weight (w : wstate) : nat :=
  match w with Queued => 3 | Exited => 1 | Finished => 0 end.

Definition measure (s : pstate) : nat :=
  sum_list (weight <$> workers s) + length (results s)
  + (if closed s then 0 else 1) + (if cancelled s then 0 else 1)
  + (match caller s with Draining => 1 | Returned _ _ => 0 end).

(** One whole call under a proposed schedule: the actions taken and the
    final state. *)
Definition execute (bufs : list string) (ctx0 : bool) (sched : list action) : list action * pstate :=
  let '(tr1, s1) := follow bufs sched (init (length bufs) ctx0) in
  let '(tr2, s2) := finish bufs (measure s1) s1 in
  (tr1 ++ tr2, s2).

(** [fmt.Fprintln(buf, f(m))] into a fresh buffer. *)
Definition Fprintln (c : gmap string V) : string := render c +:+ LF.

(** The buffer each worker serializes from its own shard. *)
Definition snapshots (f : mapperFunc) (shards : list MetricMap) : list string :=
  (λ m, Fprintln (select f m)) <$> shards.

(** ** The world the console acts on *)

(** Timestamps and the like that the collaborators report, and their [%v]
    rendering; both are outside console.go. *)
Context {Stamp : Type}.
Variable fmt_v : Stamp → string.

(** Modelled from the spec: the snapshots returned by [Receiver.GetStats] and
    [Flusher.GetStats], declared outside console.go. *)
Record ReceiverStats := mkReceiverStats {
  BadLines : N;
  MetricsReceived : N;
  PacketsReceived : N;
  LastPacket : Stamp
}.

(** Modelled from the spec: the snapshot returned by [Flusher.GetStats]. *)
Record FlusherStats := mkFlusherStats {
  LastFlush : Stamp;
  LastFlushError : Stamp
}.

(** What the console does to the outside, in the order it happens. *)
Inductive event :=
| EvListen (addr : string)             (* net.Listen("tcp", addr) *)
| EvCloseListener (addr : string)      (* l.Close() *)
| EvGo (conn : nat)                    (* go s.serveConnection(ctx, c, commands) *)
| EvWrite (conn : nat) (text : string) (* bytes written to a connection *)
| EvCloseConn (conn : nat)             (* conn.Close() *)
| EvLog (msg : string).                (* log.Infof *)

#[global] Instance event_eq_dec : EqDecision event.
Proof. solve_decision. Defined.

Record World := mkWorld {
  shards : list MetricMap;            (* s.Dispatcher: worker i owns shard i *)
  receiverStats : ReceiverStats;      (* s.Receiver.GetStats() *)
  flusherStats : FlusherStats;        (* s.Flusher.GetStats() *)
  ctxDone : bool;                     (* the ctx given to Serve is done *)
  schedules : list (list action);     (* how the coming fan-out reads interleave *)
  events : list event
}.

Definition set_shards (d : list MetricMap) (w : World) : World :=
  mkWorld d (receiverStats w) (flusherStats w) (ctxDone w) (schedules w) (events w).
Definition set_ctxDone (b : bool) (w : World) : World :=
  mkWorld (shards w) (receiverStats w) (flusherStats w) b (schedules w) (events w).
Definition set_schedules (l : list (list action)) (w : World) : World :=
  mkWorld (shards w) (receiverStats w) (flusherStats w) (ctxDone w) l (events w).
Definition set_events (l : list event) (w : World) : World :=
  mkWorld (shards w) (receiverStats w) (flusherStats w) (ctxDone w) (schedules w) l.

(** Computations on the world; [None] is a call that does not return (a
    panic, or goroutines stuck for ever). *)
Definition M (A : Type) : Type := World → option (A * World).

#[global] Instance M_ret : MRet M := λ A a w, Some (a, w).
#[global] Instance M_bind : MBind M := λ A B f m w,
  match m w with
  | Some (a, w') => f a w'
  | None => None
  end.

Definition emit (e : event) : M unit := λ w, Some ((), set_events (events w ++ [e]) w).

(** ** ConsoleServer.delete and ConsoleServer.printMetrics on the world *)

(** [s.delete(ctx, keys, f)].  The workers run in the order of their ids;
    [delete_run_order] shows that the order does not matter. *)
Definition ConsoleServer_delete (keys : list string) (f : mapperFunc) : M N := λ w,
  let '(shards', counter) := delete_run (seq 0 (length (shards w))) keys f (shards w) in
  Some (counter, set_shards shards' w).

(** [s.printMetrics(ctx, f)].  The interleaving of this call is the next
    schedule of the world; the call returns what the caller goroutine
    returns. *)
Definition printMetrics (f : mapperFunc) : M (string * option error) := λ w,
  let '(_, s) := execute (snapshots f (shards w)) (ctxDone w) (hd [] (schedules w)) in
  if panicked s then None else
  match caller s with
  | Returned out err => Some ((out, err), set_ctxDone (cancelled s) (set_schedules (tail (schedules w)) w))
  | Draining => None
  end.

(** ** The command table of Serve *)

(** [cmd.CmdFn], [func(args []string) (string, error)]; the closures of the
    table capture [s] and [ctx], which are in the world. *)
Definition CmdFn : Type := list string → M (string * option error).

Definition help_text : string :=
  "Commands: stats, counters, timers, gauges, delcounters, deltimers, delgauges, quit" +:+ LF.

Definition stats_text (r : ReceiverStats) (fl : FlusherStats) : string :=
  "Invalid messages received: " +:+ fmt_d (BadLines r) +:+ LF +:+
  "Metrics received: " +:+ fmt_d (MetricsReceived r) +:+ LF +:+
  "Packets received: " +:+ fmt_d (PacketsReceived r) +:+ LF +:+
  "Last packet received: " +:+ fmt_v (LastPacket r) +:+ LF +:+
  "Last flush to backends: " +:+ fmt_v (LastFlush fl) +:+ LF +:+
  "Last error from backends: " +:+ fmt_v (LastFlushError fl) +:+ LF.

Definition commands : gmap string CmdFn :=
  list_to_map [
    ("help", λ args, mret (help_text, None));
    ("stats", λ args w, Some ((stats_text (receiverStats w) (flusherStats w), None), w));
    ("counters", λ args, printMetrics getCounters);
    ("timers", λ args, printMetrics getTimers);
    ("gauges", λ args, printMetrics getGauges);
    ("sets", λ args, printMetrics getSets);
    ("delcounters", λ args,
       i ← ConsoleServer_delete args getCounters;
       mret ("deleted " +:+ fmt_d i +:+ " counters" +:+ LF, None));
    ("deltimers", λ args,
       i ← ConsoleServer_delete args getTimers;
       mret ("deleted " +:+ fmt_d i +:+ " timers" +:+ LF, None));
    ("delgauges", λ args,
       i ← ConsoleServer_delete args getGauges;
       mret ("deleted " +:+ fmt_d i +:+ " gauges" +:+ LF, None));
    ("delsets", λ args,
       i ← ConsoleServer_delete args getSets;
       mret ("deleted " +:+ fmt_d i +:+ " sets" +:+ LF, None));
    ("quit", λ args, mret ("goodbye" +:+ LF, Some errClientQuit))
  ].

(** The names the help text lists: its words after the leading
    ["Commands:"], each without its trailing comma. *)
Definition strip_comma (t : string) : string :=
  match String.rev t with
  | String c r => if decide (c = ","%char) then String.rev r else t
  | EmptyString => t
  end.

Definition help_listed : list string :=
  strip_comma <$> tail (String.words help_text).

(** ** The session *)

(** A connection as Accept hands it out: its descriptor, and what the client
    is going to do on it, namely the lines it sends and the error (if any)
    that the read after the last line reports. *)
Record Conn := mkConn {
  fd : nat;
  incoming : list string;
  read_end : option error
}.

Definition Write (c : Conn) (text : string) : M unit :=
  if decide (text = "") then mret () else emit (EvWrite (fd c) text).

Definition Close_conn (c : Conn) : M unit := emit (EvCloseConn (fd c)).

Definition Infof (msg : string) : M unit := emit (EvLog msg).

(** The line the command interpreter answers to a name that is not in its
    table; its wording is outside console.go. *)
Variable unknown_reply : string → string.

(** Modelled from the spec: the command interpreter of package cmd
    ([cmd.New], [Cmd.Loop]), which is outside console.go.  The loop reads a
    line; a blank line gives no response; the first white-space delimited
    token selects a command of the table and the remaining tokens are its
    arguments; an unknown name is answered with an error line and the loop
    goes on; the command's response is written, and an error from the
    command ends the loop with that error; so does the end of the input.
    The prompt is written before each read. *)
Record Cmd := mkCmd {
  Commands : gmap string CmdFn;
  In : Conn;
  Out : Conn;
  Prompt : string
}.

(** Modelled from the spec: [cmd.New]; the prompt it starts with is
    replaced by serveConnection before the loop runs. *)
Definition New (commands : gmap string CmdFn) (rd wr : Conn) : Cmd :=
  mkCmd commands rd wr "".

Definition set_Prompt (p : string) (c : Cmd) : Cmd :=
  mkCmd (Commands c) (In c) (Out c) p.

(** Modelled from the spec: the handling of one line by the command
    interpreter. *)
Definition one (c : Cmd) (line : string) : M (option error) :=
  match String.words line with
  | [] => mret None
  | name :: args =>
      match Commands c !! name with
      | None => Write (Out c) (unknown_reply line);; mret None
      | Some fn =>
          '(response, err) ← fn args;
          Write (Out c) response;;
          mret err
      end
  end.

(** Modelled from the spec: the loop of the command interpreter on the
    lines still to come. *)
Fixpoint Loop_lines (c : Cmd) (lines : list string) : M (option error) :=
  Write (Out c) (Prompt c);;
  match lines with
  | [] => mret (read_end (In c))
  | line :: rest =>
      err ← one c line;
      match err with
      | Some e => mret (Some e)
      | None => Loop_lines c rest
      end
  end.

(** Modelled from the spec: [Cmd.Loop]. *)
Definition Loop (c : Cmd) : M (option error) := Loop_lines c (incoming (In c)).

(** [func (s *ConsoleServer) serveConnection(ctx, conn, commands)];
    [defer conn.Close()] runs when the function returns. *)
Definition serveConnection (conn : Conn) (commands : gmap string CmdFn) : M unit :=
  let console := New commands conn conn in
  let console := set_Prompt "console> " console in
  err ← Loop console;
  match err with
  | Some e =>
      if decide (e ≠ Canceled ∧ e ≠ DeadlineExceeded ∧ e ≠ errClientQuit)
      then Infof ("Problem with console connection: " +:+ error_text e)
      else mret ()
  | None => mret ()
  end;;
  Close_conn conn.

(** ** The server *)

Record ConsoleServer := mkConsoleServer { Addr : string }.

(** A listener: its address and the outcomes of its successive [Accept]
    calls; once these are used up, [Accept] blocks for ever. *)
Record Listener := mkListener {
  laddr : string;
  backlog : list (Conn + error)
}.

(** What a call that may never return does. *)
Inductive outcome := Blocked | Returns (err : error).

(** The loop [for { c, err := l.Accept(); ... }] of Serve.  The sessions it
    starts run as goroutines of their own, each a [serveConnection]. *)
Fixpoint accept_loop (cmds : gmap string CmdFn) (pending : list (Conn + error)) : M outcome :=
  match pending with
  | [] => mret Blocked
  | inr err :: _ => mret (Returns err)
  | inl c :: rest => emit (EvGo (fd c));; accept_loop cmds rest
  end.

(** [func (s *ConsoleServer) Serve(ctx, l) error] *)
Definition Serve (l : Listener) : M outcome :=
  accept_loop commands (backlog l).

(** [func (s *ConsoleServer) ListenAndServe(ctx) error]; [net_Listen] is
    what [net.Listen("tcp", _)] answers for each address, and
    [defer l.Close()] runs when the function returns. *)
Definition ListenAndServe (s : ConsoleServer) (net_Listen : string → Listener + error) : M outcome :=
  let addr := Addr s in
  let addr := if decide (addr = "") then DefaultConsoleAddr else addr in
  emit (EvListen addr);;
  match net_Listen addr with
  | inr err => mret (Returns err)
  | inl l =>
      r ← Serve l;
      match r with
      | Returns err => emit (EvCloseListener (laddr l));; mret (Returns err)
      | Blocked => mret Blocked
      end
  end.

(** ** The delete count in the words of the specification *)

(** The count as the specification words it, to be compared with what
    [delete_run] returns: the number of removals that really happen when
    [keys] are deleted from one collection.  A key counts once if it is
    present, however often it is listed. *)
Definition spec_removed_on (keys : list string) (metrics : gmap string V) : N :=
  N.of_nat (length (filter (λ k, is_Some (metrics !! k)) (remove_dups keys))).

(** The total over all shards. *)
Definition spec_removed_total (keys : list string) (f : mapperFunc) (workers : list MetricMap) : N :=
  foldr (λ m acc, (spec_removed_on keys (select f m) + acc)%N) 0%N workers.

(** ** Notions used to state and prove the properties *)

(** The bytes of a sequence of buffers, one after the other. *)
Definition join (l : list string) : string := foldr String.app "" l.

(** The buffers of the workers that have not passed their select. *)
Fixpoint waiting (bufs : list string) (ws : list wstate) : list string :=
  match ws, bufs with
  | w :: ws', b :: bufs' =>
      (if decide (w = Queued) then [b] else []) ++ waiting bufs' ws'
  | _, _ => []
  end.

(** The number of workers that have not called [wg.Done]. *)
Definition alive (ws : list wstate) : nat :=
  sum_list ((λ w, if decide (w = Finished) then 0 else 1) <$> ws).

(** What holds of every state a call can reach. *)
Record inv (bufs : list string) (s : pstate) : Prop := mkInv {
  inv_len : length (workers s) = length bufs;
  inv_wg : wg s = alive (workers s);
  inv_closed : closed s = true → wg s = 0;
  inv_panic : panicked s = false;
  inv_cap : length (results s) ≤ results_capacity;
  inv_data : ∃ got,
    buf s = join got ∧
    got ++ results s ++ waiting bufs (workers s) ⊆+ bufs ∧
    (cancelled s = false → got ++ results s ++ waiting bufs (workers s) ≡ₚ bufs);
  inv_ret : ∀ out err, caller s = Returned out err →
    err = None ∧ out = buf s ∧ closed s = true ∧ results s = []
}.

(** How the actions taken so far show in the state. *)
Record tinv (tr : list action) (s : pstate) : Prop := mkTinv {
  tinv_queued : ∀ i, workers s !! i = Some Queued → (Send i ∉ tr) ∧ (Drop i ∉ tr);
  tinv_passed : ∀ i w, workers s !! i = Some w → w ≠ Queued → Send i ∈ tr ∨ Drop i ∈ tr;
  tinv_finished : ∀ i, workers s !! i = Some Finished → Done i ∈ tr;
  tinv_close : length (filter (λ a, a = Close) tr) = if closed s then 1 else 0
}.

(** The shard after the loop of delete has run on it. *)
Definition cleaned (keys : list string) (f : mapperFunc) (m : MetricMap) : MetricMap :=
  assign f m (foldl (λ c k, Metrics_Delete k c) (select f m) keys).

(** The name of a metric kind in the responses. *)
Definition kind_name (f : mapperFunc) : string :=
  match f with
  | getCounters => "counters"
  | getTimers => "timers"
  | getGauges => "gauges"
  | getSets => "sets"
  end.

(** The part of the session that handles the lines [pre], up to but not
    including the read that follows them. *)
Fixpoint run_lines (c : Cmd) (pre : list string) : M (option error) :=
  match pre with
  | [] => mret None
  | line :: rest =>
      Write (Out c) (Prompt c);;
      err ← one c line;
      match err with
      | Some e => mret (Some e)
      | None => run_lines c rest
      end
  end.

(** The console that serveConnection builds for a connection. *)
Definition console_of (conn : Conn) (cmds : gmap string CmdFn) : Cmd :=
  set_Prompt "console> " (New cmds conn conn).

End Console.

(** ** Concrete data for the examples *)

Definition show_entry (kv : string * N) : string :=
  let '(k, v) := kv in k +:+ "=" +:+ fmt_d v.

Definition show (c : gmap string N) : string :=
  "map[" +:+ String.concat " " (show_entry <$> map_to_list c) +:+ "]".

Definition shard0 : @MetricMap N := mkMetricMap {["a" := 5%N]} ∅ ∅ ∅.
Definition shard1 : @MetricMap N := mkMetricMap {["b" := 3%N]} ∅ ∅ ∅.

Definition world0 (scheds : list (list action)) : @World N string :=
  mkWorld [shard0; shard1]
          (mkReceiverStats 0 7 2 "t1") (mkFlusherStats "t2" "never")
          false scheds [].

Definition unknown0 (line : string) : string := "unknown command: " +:+ line +:+ LF.

Definition conn0 (lines : list string) (e : option error) : Conn := mkConn 4 lines e.

Definition fmt_v0 (x : string) : string := x.

Definition cmds0 : gmap string (@CmdFn N string) := commands show fmt_v0.

(** A session's first lines, and the world once they are handled. *)
Definition pre0 : list string := ["help"; "  "; "bogus x"; "delcounters a b a"].

Definition after_pre0 : @World N string :=
  mkWorld [mkMetricMap ∅ ∅ ∅ ∅; mkMetricMap ∅ ∅ ∅ ∅]
          (mkReceiverStats 0 7 2 "t1") (mkFlusherStats "t2" "never")
          false []
          [EvWrite 4 "console> "; EvWrite 4 help_text;
           EvWrite 4 "console> ";
           EvWrite 4 "console> "; EvWrite 4 ("unknown command: bogus x" +:+ LF);
           EvWrite 4 "console> "; EvWrite 4 ("deleted 6 counters" +:+ LF)].

Definition listener0 (pending : list (Conn + error)) : Listener := mkListener ":8126" pending.

Definition net0 (pending : list (Conn + error)) (addr : string) : Listener + error :=
  if decide (addr = ":8126") then inl (listener0 pending)
  else inr (OtherError "listen: address already in use").

(** ** Further notions used by the properties *)

(** The buffers that the [Send] actions of a run put on the channel, in the
    order of the sends. *)
Definition sent (bufs : list string) (tr : list action) : list string :=
  omap (λ a, match a with Send i => bufs !! i | _ => None end) tr.

(** How the sends and drops taken so far show in the state: what was sent
    is what the caller has written followed by what is still in the channel,
    and a drop needs a context that is done. *)
Record sinv (bufs : list string) (tr : list action) (s : pstate) : Prop := mkSinv {
  sinv_fifo : ∃ got, buf s = join got ∧ got ++ results s = sent bufs tr;
  sinv_drop : ∀ i, Drop i ∈ tr → cancelled s = true
}.

(** The names of the commands that go through ConsoleServer.delete. *)
Definition delete_commands : list string :=
  ["delcounters"; "deltimers"; "delgauges"; "delsets"].

(** Seventeen workers, one more than the channel holds. *)
Definition bufs17 : list string := replicate 17 "m".

(** The state once sixteen of them have sent: the channel is full. *)
Definition full17 : pstate :=
  mkPstate (replicate 16 Exited ++ [Queued]) 17 (replicate 16 "m")
           false false "" Draining false.

Definition shard2 : @MetricMap N :=
  mkMetricMap {["a" := 1%N; "c" := 2%N]} {["a" := 7%N]} ∅ {["a" := 9%N]}.

(** * Properties *)

(** ** The delete path *)

Section Delete_properties.

Context {V : Type}.
Implicit Types (m : @MetricMap V) (d : list (@MetricMap V)).

Lemma wrap32_small n : (n < uint32_modulus)%N → wrap32 n = n.
Proof. intros. unfold wrap32. by apply N.mod_small. Qed.

Lemma wrap32_add_l a b : wrap32 (wrap32 a + b) = wrap32 (a + b).
Proof. unfold wrap32. by rewrite N.Div0.add_mod_idemp_l. Qed.

Lemma wrap32_add_r a b : wrap32 (a + wrap32 b) = wrap32 (a + b).
Proof. unfold wrap32. by rewrite N.Div0.add_mod_idemp_r. Qed.

(** The loop increments [i] once per listed key, whether or not the key was
    in the collection. *)
Lemma delete_loop_from keys (c : gmap string V) (i : N) :
  foldl (λ '(metrics, i) k, (Metrics_Delete k metrics, wrap32 (i + 1))) (c, wrap32 i) keys
  = (foldl (λ c k, Metrics_Delete k c) c keys, wrap32 (i + N.of_nat (length keys))).
Proof.
  revert c i. induction keys as [|k keys IH]; intros c i; simpl.
  - by rewrite N.add_0_r.
  - rewrite wrap32_add_l, IH. do 2 f_equal. lia.
Qed.

Lemma delete_loop_eq keys (c : gmap string V) :
  delete_loop keys c
  = (foldl (λ c k, Metrics_Delete k c) c keys, wrap32 (N.of_nat (length keys))).
Proof.
  unfold delete_loop. rewrite <- (wrap32_small 0) at 1 by done.
  by rewrite delete_loop_from.
Qed.

Lemma delete_work_eq keys f i m counter :
  delete_work keys f i m counter
  = (cleaned keys f m, wrap32 (counter + N.of_nat (length keys))).
Proof.
  unfold delete_work, cleaned, AddUint32. rewrite delete_loop_eq.
  by rewrite wrap32_add_r.
Qed.

(** Running the workers of [order], none twice: each of them has cleaned its
    shard, the others are untouched, and the counter has grown by the number
    of listed keys for each worker that ran. *)
Lemma Process_delete_work keys f order d counter :
  NoDup order → (∀ i, i ∈ order → i < length d) →
  length (Process (delete_work keys f) order d (wrap32 counter)).1 = length d
  ∧ (∀ j, (Process (delete_work keys f) order d (wrap32 counter)).1 !! j
          = if decide (j ∈ order) then cleaned keys f <$> d !! j else d !! j)
  ∧ (Process (delete_work keys f) order d (wrap32 counter)).2
    = wrap32 (counter + N.of_nat (length order) * N.of_nat (length keys)).
Proof.
  unfold Process. revert d counter.
  induction order as [|i order IH]; intros d counter Hnd Hin; simpl.
  - split; [done|]. split.
    + done.
    + f_equal. lia.
  - apply NoDup_cons in Hnd as [Hi Hnd].
    destruct (lookup_lt_is_Some_2 d i) as [m Hm]; [apply Hin; left|].
    assert (run_worker (delete_work keys f) (d, wrap32 counter) i
            = (<[i := cleaned keys f m]> d, wrap32 (counter + N.of_nat (length keys))))
      as ->.
    { unfold run_worker. simpl. by rewrite Hm, delete_work_eq, wrap32_add_l. }
    destruct (IH (<[i := cleaned keys f m]> d) (counter + N.of_nat (length keys))%N Hnd)
      as (Hlen & Hlook & Hcnt).
    { intros j Hj. rewrite length_insert. apply Hin. by right. }
    rewrite length_insert in Hlen. split; [done|]. split.
    + intros j. rewrite Hlook. destruct (decide (j = i)) as [->|Hne].
      * rewrite decide_False by done. rewrite decide_True by left.
        rewrite list_lookup_insert_eq by (by eapply lookup_lt_Some).
        by rewrite Hm.
      * rewrite list_lookup_insert_ne by done.
        destruct (decide (j ∈ order)).
        -- by rewrite decide_True by (by right).
        -- rewrite decide_False; [done|]. by intros [?|?]%elem_of_cons.
    + rewrite Hcnt. f_equal. lia.
Qed.

(** What the code returns: every worker counts every listed key, so the
    count is the number of shards times the number of listed keys (modulo
    2^32), whatever the shards contain; and it is the same in every order in
    which the workers may run. *)
Lemma delete_run_fair keys f order d :
  fair_order order d →
  delete_run order keys f d
  = (cleaned keys f <$> d, wrap32 (N.of_nat (length d) * N.of_nat (length keys))).
Proof.
  intros Hfair. unfold delete_run.
  rewrite <- (wrap32_small 0) at 1 by done.
  destruct (Process_delete_work keys f order d 0) as (Hlen & Hlook & Hcnt).
  { rewrite Hfair. apply NoDup_seq. }
  { intros i Hi. rewrite Hfair in Hi. apply elem_of_seq in Hi. lia. }
  apply injective_projections; simpl.
  - apply list_eq. intros j. rewrite Hlook, list_lookup_fmap.
    case_decide as Hj; [done|].
    rewrite Hfair, elem_of_seq in Hj.
    rewrite (lookup_ge_None_2 d j) by lia. done.
  - rewrite Hcnt. f_equal. rewrite (Permutation_length Hfair), length_seq. lia.
Qed.

Lemma delete_run_order keys f order1 order2 d :
  fair_order order1 d → fair_order order2 d →
  delete_run order1 keys f d = delete_run order2 keys f d.
Proof. intros H1 H2. by rewrite !delete_run_fair. Qed.

End Delete_properties.

(** ** The fan-out / fan-in read *)

Section Read_properties.

Implicit Types (bufs : list string) (ws : list wstate) (s : pstate) (tr : list action).

Lemma string_app_cons (x : ascii) (a b : string) : String x a +:+ b = String x (a +:+ b).
Proof. reflexivity. Qed.

Lemma string_app_assoc (a b c : string) : (a +:+ b) +:+ c = a +:+ (b +:+ c).
Proof. induction a as [|x a IH]; [done|]. by rewrite !string_app_cons, IH. Qed.

Lemma string_app_empty_r (a : string) : a +:+ "" = a.
Proof. induction a as [|x a IH]; [done|]. by rewrite string_app_cons, IH. Qed.

Lemma join_app l1 l2 : join (l1 ++ l2) = join l1 +:+ join l2.
Proof.
  induction l1 as [|x l1 IH]; simpl; [done|].
  by rewrite IH, string_app_assoc.
Qed.

Lemma join_snoc l b : join (l ++ [b]) = join l +:+ b.
Proof. rewrite join_app. simpl. by rewrite string_app_empty_r. Qed.

Lemma sum_list_fmap_insert {A} (g : A → nat) (l : list A) i x y :
  l !! i = Some x →
  sum_list (g <$> <[i := y]> l) + g x = sum_list (g <$> l) + g y.
Proof.
  revert i. induction l as [|z l IH]; intros [|i] Hi; simplify_eq/=; [lia|].
  specialize (IH _ Hi). lia.
Qed.

Lemma alive_insert ws i w w' :
  ws !! i = Some w →
  alive (<[i := w']> ws) + (if decide (w = Finished) then 0 else 1)
  = alive ws + (if decide (w' = Finished) then 0 else 1).
Proof.
  intros Hi. unfold alive.
  apply (sum_list_fmap_insert (λ w, if decide (w = Finished) then 0 else 1) ws i w w' Hi).
Qed.

Lemma alive_0 ws i w : alive ws = 0 → ws !! i = Some w → w = Finished.
Proof.
  unfold alive. revert i. induction ws as [|z ws IH]; intros [|i] H0 Hi; simplify_eq/=.
  - destruct (decide (w = Finished)); [done|lia].
  - apply (IH i); [lia|done].
Qed.

Lemma alive_all_finished ws : (∀ i w, ws !! i = Some w → w = Finished) → alive ws = 0.
Proof.
  unfold alive. induction ws as [|z ws IH]; intros Hall; simpl; [done|].
  rewrite (Hall 0 z eq_refl). simpl. apply IH. intros i w Hi. by apply (Hall (S i)).
Qed.

Lemma alive_replicate n : alive (replicate n Queued) = n.
Proof.
  induction n as [|n IH]; [done|].
  change (alive (replicate (S n) Queued)) with (S (alive (replicate n Queued))).
  by rewrite IH.
Qed.

Lemma waiting_replicate bufs : waiting bufs (replicate (length bufs) Queued) = bufs.
Proof. induction bufs as [|b bufs IH]; simpl; [done|]. by rewrite IH. Qed.

Lemma waiting_pass bufs ws i b w' :
  ws !! i = Some Queued → bufs !! i = Some b → w' ≠ Queued →
  waiting bufs ws ≡ₚ b :: waiting bufs (<[i := w']> ws).
Proof.
  revert bufs i. induction ws as [|w ws IH]; intros [|b0 bufs] [|i] Hw Hb Hne;
    simplify_eq/=.
  - by rewrite decide_False by done.
  - rewrite (IH bufs i) by done.
    destruct (decide (w = Queued)); simpl; [apply Permutation_swap|done].
Qed.

Lemma waiting_keep bufs ws i w w' :
  ws !! i = Some w → w ≠ Queued → w' ≠ Queued →
  waiting bufs (<[i := w']> ws) = waiting bufs ws.
Proof.
  revert bufs i. induction ws as [|w0 ws IH]; intros [|b0 bufs] [|i] Hw Hne Hne';
    simplify_eq/=; try done.
  - by rewrite !decide_False by done.
  - by rewrite (IH bufs i).
Qed.

Lemma waiting_none bufs ws :
  (∀ i, ws !! i ≠ Some Queued) → waiting bufs ws = [].
Proof.
  revert bufs. induction ws as [|w ws IH]; intros [|b bufs] Hall; simpl; try done.
  rewrite decide_False by (intros ->; by apply (Hall 0)).
  apply IH. intros i. apply (Hall (S i)).
Qed.

Lemma init_inv bufs ctx0 : inv bufs (init (length bufs) ctx0).
Proof.
  split; simpl.
  - apply length_replicate.
  - by rewrite alive_replicate.
  - done.
  - done.
  - lia.
  - exists []. simpl. rewrite waiting_replicate. done.
  - done.
Qed.

(** Once the channel is closed no worker is left to send on it. *)
Lemma inv_closed_finished bufs s i w :
  inv bufs s → wg s = 0 → workers s !! i = Some w → w = Finished.
Proof. intros Hinv H0 Hw. eapply alive_0; [|done]. by rewrite <- (inv_wg _ _ Hinv). Qed.

Lemma step_inv bufs a s s' : inv bufs s → step bufs a s = Some s' → inv bufs s'.
Proof.
  intros Hinv Hstep.
  pose proof Hinv as [Hlen Hwg Hcl Hpan Hcap (got & Hbuf & Hsub & Hperm) Hret].
  unfold step in Hstep. rewrite Hpan in Hstep.
  destruct a as [ |i|i|i| | | ].
  - (* Cancel *)
    destruct (cancelled s) eqn:Hc; simplify_eq.
    split; simpl; try done. exists got. by split_and!.
  - (* Send *)
    destruct (workers s !! i) as [[]|] eqn:Hw; try done.
    destruct (bufs !! i) as [b|] eqn:Hb; try done.
    destruct (closed s) eqn:Hc.
    { by pose proof (inv_closed_finished _ _ _ _ Hinv (Hcl eq_refl) Hw). }
    case_decide; simplify_eq.
    pose proof (waiting_pass bufs _ i b Exited Hw Hb ltac:(done)) as Hwait.
    assert (got ++ (results s ++ [b]) ++ waiting bufs (<[i:=Exited]> (workers s))
            ≡ₚ got ++ results s ++ waiting bufs (workers s)) as Heq.
    { rewrite Hwait, <- (assoc_L (++) (results s)). done. }
    split; simpl.
    + by rewrite length_insert.
    + pose proof (alive_insert _ i _ Exited Hw) as Ha. simpl in Ha. lia.
    + intros ?. congruence.
    + done.
    + rewrite length_app. simpl. lia.
    + exists got. split; [done|]. rewrite Heq. done.
    + intros out err Hcaller. destruct (Hret _ _ Hcaller) as (?&?&?&?). congruence.
  - (* Drop *)
    destruct (workers s !! i) as [[]|] eqn:Hw; try done.
    destruct (cancelled s) eqn:Hc; simplify_eq.
    destruct (lookup_lt_is_Some_2 bufs i) as [b Hb].
    { rewrite <- Hlen. by eapply lookup_lt_Some. }
    pose proof (waiting_pass bufs _ i b Exited Hw Hb ltac:(done)) as Hwait.
    split; simpl.
    + by rewrite length_insert.
    + pose proof (alive_insert _ i _ Exited Hw) as Ha. simpl in Ha. lia.
    + done.
    + done.
    + done.
    + exists got. split; [done|]. split; [|by rewrite Hc].
      etrans; [|exact Hsub]. apply submseteq_skips_l, submseteq_skips_l.
      rewrite Hwait. by apply submseteq_cons.
    + done.
  - (* Done *)
    destruct (workers s !! i) as [[]|] eqn:Hw; try done.
    destruct (wg s) as [|n] eqn:Hn.
    { by pose proof (inv_closed_finished _ _ _ _ Hinv Hn Hw). }
    simplify_eq.
    split; simpl.
    + by rewrite length_insert.
    + pose proof (alive_insert _ i _ Finished Hw) as Ha. simpl in Ha. lia.
    + intros Hc. specialize (Hcl Hc). lia.
    + done.
    + done.
    + exists got. by rewrite (waiting_keep bufs _ i Exited Finished).
    + intros out err Hcaller. destruct (Hret _ _ Hcaller) as (?&?&Hc&?).
      specialize (Hcl Hc). lia.
  - (* Close *)
    destruct (wg s) eqn:Hn; [|done].
    destruct (closed s) eqn:Hc; simplify_eq.
    split; simpl; try done.
    + congruence.
    + by exists got.
    + intros out err Hcaller. by destruct (Hret _ _ Hcaller) as (?&?&?&?).
  - (* Recv *)
    destruct (caller s) eqn:Hcaller; [|done].
    destruct (results s) as [|b rest] eqn:Hr; simplify_eq.
    split; simpl; try done.
    + simpl in Hcap. lia.
    + exists (got ++ [b]). rewrite join_snoc, Hbuf. split; [done|].
      by rewrite <- (assoc_L (++) got).
    + by rewrite Hcaller.
  - (* Return *)
    destruct (caller s) eqn:Hcaller; [|done].
    destruct (results s) as [|b rest] eqn:Hr; [|done].
    destruct (closed s) eqn:Hc; simplify_eq.
    split; simpl; try done.
    + intros _. by apply Hcl.
    + rewrite Hr. simpl. lia.
    + exists got. by rewrite Hr.
    + by intros out err [= <- <-].
Qed.

Lemma steps_app bufs tr1 tr2 s :
  steps bufs (tr1 ++ tr2) s = steps bufs tr1 s ≫= steps bufs tr2.
Proof.
  revert s. induction tr1 as [|a tr1 IH]; intros s; simpl; [done|].
  destruct (step bufs a s); simpl; [apply IH|done].
Qed.

Lemma steps_inv bufs tr s s' : inv bufs s → steps bufs tr s = Some s' → inv bufs s'.
Proof.
  revert s. induction tr as [|a tr IH]; intros s Hinv Hs; simplify_eq/=; [done|].
  destruct (step bufs a s) as [s1|] eqn:Hstep; [|done].
  eapply IH; [|done]. by eapply step_inv.
Qed.

(** Every action uses up some of the measure, so no call runs for ever. *)
Lemma step_measure bufs a s s' :
  inv bufs s → step bufs a s = Some s' → measure s' < measure s.
Proof.
  intros Hinv Hstep.
  pose proof Hinv as [Hlen Hwg Hcl Hpan Hcap _ Hret].
  unfold step in Hstep. rewrite Hpan in Hstep. unfold measure.
  destruct a as [ |i|i|i| | | ].
  - destruct (cancelled s) eqn:Hc; simplify_eq/=. rewrite ?Hc. lia.
  - destruct (workers s !! i) as [[]|] eqn:Hw; try done.
    destruct (bufs !! i) as [b|] eqn:Hb; try done.
    destruct (closed s) eqn:Hc.
    { by pose proof (inv_closed_finished _ _ _ _ Hinv (Hcl eq_refl) Hw). }
    case_decide; simplify_eq/=. rewrite ?Hc, length_app. simpl.
    pose proof (sum_list_fmap_insert weight _ i _ Exited Hw) as Ha. simpl in Ha. lia.
  - destruct (workers s !! i) as [[]|] eqn:Hw; try done.
    destruct (cancelled s) eqn:Hc; simplify_eq/=. rewrite ?Hc.
    pose proof (sum_list_fmap_insert weight _ i _ Exited Hw) as Ha. simpl in Ha. lia.
  - destruct (workers s !! i) as [[]|] eqn:Hw; try done.
    destruct (wg s) as [|n] eqn:Hn.
    { by pose proof (inv_closed_finished _ _ _ _ Hinv Hn Hw). }
    simplify_eq/=.
    pose proof (sum_list_fmap_insert weight _ i _ Finished Hw) as Ha. simpl in Ha. lia.
  - destruct (wg s) eqn:Hn; [|done].
    destruct (closed s) eqn:Hc; simplify_eq/=. rewrite ?Hc. lia.
  - destruct (caller s) eqn:Hcaller; [|done].
    destruct (results s) as [|b rest] eqn:Hr; simplify_eq/=. rewrite ?Hcaller, ?Hr. simpl. lia.
  - destruct (caller s) eqn:Hcaller; [|done].
    destruct (results s) as [|b rest] eqn:Hr; [|done].
    destruct (closed s) eqn:Hc; simplify_eq/=. rewrite ?Hcaller, ?Hr, ?Hc. simpl. lia.
Qed.

(** Until the caller has returned some action is enabled: the goroutines
    never get stuck.  The action is the one [next] picks. *)
Lemma next_enabled bufs s a :
  inv bufs s → next s = Some a → is_Some (step bufs a s).
Proof.
  intros Hinv Hnext.
  pose proof Hinv as [Hlen Hwg Hcl Hpan Hcap _ Hret].
  unfold next in Hnext. unfold step. rewrite Hpan.
  destruct (caller s) eqn:Hcaller; [|done].
  destruct (list_find (λ w, w = Queued) (workers s)) as [[i w]|] eqn:Hq.
  - apply list_find_Some in Hq as (Hw & -> & _).
    destruct (lookup_lt_is_Some_2 bufs i) as [b Hb].
    { rewrite <- Hlen. by eapply lookup_lt_Some. }
    assert (closed s = false) as Hc.
    { destruct (closed s) eqn:Hc; [|done].
      by pose proof (inv_closed_finished _ _ _ _ Hinv (Hcl eq_refl) Hw). }
    case_decide as Hroom; simplify_eq.
    + by rewrite Hw, Hb, Hc.
    + destruct (results s) as [|b0 rest]; [|done].
      simpl in Hroom. unfold results_capacity in Hroom. lia.
  - destruct (list_find (λ w, w = Exited) (workers s)) as [[i w]|] eqn:He.
    + apply list_find_Some in He as (Hw & -> & _). simplify_eq.
      rewrite Hw. destruct (wg s) as [|n] eqn:Hn; [|done].
      by pose proof (inv_closed_finished _ _ _ _ Hinv Hn Hw).
    + assert (wg s = 0) as Hn.
      { rewrite Hwg. apply alive_all_finished. intros i w Hw.
        apply list_find_None in Hq, He.
        pose proof (proj1 (Forall_lookup _ _) Hq i w Hw).
        pose proof (proj1 (Forall_lookup _ _) He i w Hw).
        by destruct w. }
      destruct (closed s) eqn:Hc; simplify_eq.
      * destruct (results s); [by rewrite ?Hc | done].
      * by rewrite Hn.
Qed.

Lemma next_None s : next s = None → ∃ out err, caller s = Returned out err.
Proof.
  unfold next. destruct (caller s); [|by eauto].
  repeat case_match; done.
Qed.

Lemma measure_0 s : measure s = 0 → ∃ out err, caller s = Returned out err.
Proof. unfold measure. destruct (caller s); [lia|by eauto]. Qed.

Lemma follow_steps bufs sched s :
  steps bufs (follow bufs sched s).1 s = Some (follow bufs sched s).2.
Proof.
  revert s. induction sched as [|a sched IH]; intros s; simpl; [done|].
  destruct (step bufs a s) as [s1|] eqn:Hstep; [|apply IH].
  specialize (IH s1). destruct (follow bufs sched s1) as [tr s2].
  simpl in *. by rewrite Hstep.
Qed.

Lemma finish_steps bufs fuel s :
  steps bufs (finish bufs fuel s).1 s = Some (finish bufs fuel s).2.
Proof.
  revert s. induction fuel as [|fuel IH]; intros s; simpl; [done|].
  destruct (next s) as [a|]; [|done].
  destruct (step bufs a s) as [s1|] eqn:Hstep; [|done].
  specialize (IH s1). destruct (finish bufs fuel s1) as [tr s2].
  simpl in *. by rewrite Hstep.
Qed.

(** With the measure as fuel the caller gets to return. *)
Lemma finish_returns bufs fuel s :
  inv bufs s → measure s ≤ fuel →
  ∃ out err, caller (finish bufs fuel s).2 = Returned out err.
Proof.
  revert s. induction fuel as [|fuel IH]; intros s Hinv Hm; simpl.
  - apply measure_0. lia.
  - destruct (next s) as [a|] eqn:Hnext; [|by apply next_None].
    destruct (next_enabled bufs s a Hinv Hnext) as [s1 Hstep]. rewrite Hstep.
    pose proof (step_measure _ _ _ _ Hinv Hstep).
    destruct (IH s1) as (out & err & Hret); [by eapply step_inv|lia|].
    destruct (finish bufs fuel s1). eauto.
Qed.

(** A call, whatever its schedule: the actions taken are enabled one after
    the other from the initial state, the invariant holds at the end, and
    the caller has returned its buffer and a nil error. *)
Lemma execute_spec bufs ctx0 sched :
  steps bufs (execute bufs ctx0 sched).1 (init (length bufs) ctx0)
    = Some (execute bufs ctx0 sched).2
  ∧ inv bufs (execute bufs ctx0 sched).2
  ∧ caller (execute bufs ctx0 sched).2 = Returned (buf (execute bufs ctx0 sched).2) None.
Proof.
  unfold execute.
  pose proof (follow_steps bufs sched (init (length bufs) ctx0)) as H1.
  destruct (follow bufs sched (init (length bufs) ctx0)) as [tr1 s1]. simpl in H1.
  pose proof (finish_steps bufs (measure s1) s1) as H2.
  assert (inv bufs s1) as Hinv1 by (eapply steps_inv; [apply init_inv|done]).
  destruct (finish_returns bufs (measure s1) s1 Hinv1) as (out & err & Hret); [done|].
  destruct (finish bufs (measure s1) s1) as [tr2 s2]. simpl in *.
  assert (inv bufs s2) as Hinv2 by (by eapply steps_inv).
  split_and!.
  - by rewrite steps_app, H1.
  - done.
  - destruct (inv_ret _ _ Hinv2 _ _ Hret) as (-> & -> & _). done.
Qed.

(** Every run of the goroutines up to the caller's return is what [execute]
    does under the schedule that lists its actions. *)
Lemma execute_covers bufs ctx0 tr s out err :
  steps bufs tr (init (length bufs) ctx0) = Some s →
  caller s = Returned out err →
  execute bufs ctx0 tr = (tr, s).
Proof.
  intros Hsteps Hret. unfold execute.
  assert (∀ s0, steps bufs tr s0 = Some s → follow bufs tr s0 = (tr, s)) as Hfollow.
  { clear Hsteps. induction tr as [|a tr IH]; intros s0 Hs; simplify_eq/=; [done|].
    destruct (step bufs a s0) as [s1|]; [|done]. by rewrite (IH s1). }
  rewrite (Hfollow _ Hsteps).
  assert (finish bufs (measure s) s = ([], s)) as ->.
  { destruct (measure s); simpl; [done|]. unfold next. by rewrite Hret. }
  by rewrite app_nil_r.
Qed.

Lemma count_close_snoc tr a :
  length (filter (λ a, a = Close) (tr ++ [a]))
  = length (filter (λ a, a = Close) tr) + (if decide (a = Close) then 1 else 0).
Proof.
  rewrite filter_app, length_app. f_equal.
  rewrite filter_cons, filter_nil. by destruct (decide (a = Close)).
Qed.

Lemma init_tinv n ctx0 : tinv [] (init n ctx0).
Proof.
  split; simpl.
  - intros i _. split; apply not_elem_of_nil.
  - intros i w [-> _]%lookup_replicate. done.
  - intros i [? _]%lookup_replicate. done.
  - done.
Qed.

Lemma elem_of_snoc (tr : list action) a x : x ∈ tr ++ [a] ↔ x ∈ tr ∨ x = a.
Proof. by rewrite elem_of_app, list_elem_of_singleton. Qed.

Local Ltac trace_solver := rewrite ?elem_of_snoc; intuition congruence.

Lemma step_tinv bufs a s s' tr :
  inv bufs s → tinv tr s → step bufs a s = Some s' → tinv (tr ++ [a]) s'.
Proof.
  intros Hinv [Hq Hp Hf Hc] Hstep.
  pose proof (inv_panic _ _ Hinv) as Hpan.
  pose proof (inv_closed _ _ Hinv) as Hcl.
  unfold step in Hstep. rewrite Hpan in Hstep.
  destruct a as [ |i|i|i| | | ].
  - destruct (cancelled s); simplify_eq.
    split; simpl; [ | | |by rewrite count_close_snoc, Hc, Nat.add_0_r].
    + intros i Hi. destruct (Hq i Hi). trace_solver.
    + intros i w Hi Hw. destruct (Hp i w Hi Hw); trace_solver.
    + intros i Hi. specialize (Hf i Hi). trace_solver.
  - destruct (workers s !! i) as [[]|] eqn:Hw; try done.
    destruct (bufs !! i) as [b|]; try done.
    destruct (closed s) eqn:Hclosed.
    { by pose proof (inv_closed_finished _ _ _ _ Hinv (Hcl eq_refl) Hw). }
    case_decide; simplify_eq.
    split; simpl; [ | | |by rewrite count_close_snoc, Hc, Nat.add_0_r, Hclosed].
    + intros j [(_ & ? & _)|(Hne & Hj)]%list_lookup_insert_Some; [done|].
      destruct (Hq j Hj). trace_solver.
    + intros j w [(<- & _)|(Hne & Hj)]%list_lookup_insert_Some Hnq; [trace_solver|].
      destruct (Hp j w Hj Hnq); trace_solver.
    + intros j [(_ & ? & _)|(Hne & Hj)]%list_lookup_insert_Some; [done|].
      specialize (Hf j Hj). trace_solver.
  - destruct (workers s !! i) as [[]|] eqn:Hw; try done.
    destruct (cancelled s); simplify_eq.
    split; simpl; [ | | |by rewrite count_close_snoc, Hc, Nat.add_0_r].
    + intros j [(_ & ? & _)|(Hne & Hj)]%list_lookup_insert_Some; [done|].
      destruct (Hq j Hj). trace_solver.
    + intros j w [(<- & _)|(Hne & Hj)]%list_lookup_insert_Some Hnq; [trace_solver|].
      destruct (Hp j w Hj Hnq); trace_solver.
    + intros j [(_ & ? & _)|(Hne & Hj)]%list_lookup_insert_Some; [done|].
      specialize (Hf j Hj). trace_solver.
  - destruct (workers s !! i) as [[]|] eqn:Hw; try done.
    destruct (wg s) as [|n] eqn:Hn.
    { by pose proof (inv_closed_finished _ _ _ _ Hinv Hn Hw). }
    simplify_eq.
    split; simpl; [ | | |by rewrite count_close_snoc, Hc, Nat.add_0_r].
    + intros j [(_ & ? & _)|(Hne & Hj)]%list_lookup_insert_Some; [done|].
      destruct (Hq j Hj). trace_solver.
    + intros j w [(<- & _)|(Hne & Hj)]%list_lookup_insert_Some Hnq.
      * destruct (Hp i Exited Hw); [done| |]; trace_solver.
      * destruct (Hp j w Hj Hnq); trace_solver.
    + intros j [(<- & _)|(Hne & Hj)]%list_lookup_insert_Some; [trace_solver|].
      specialize (Hf j Hj). trace_solver.
  - destruct (wg s); [|done].
    destruct (closed s) eqn:Hclosed; simplify_eq.
    split; simpl; [ | | |by rewrite count_close_snoc, Hc].
    + intros i Hi. destruct (Hq i Hi). trace_solver.
    + intros i w Hi Hw. destruct (Hp i w Hi Hw); trace_solver.
    + intros i Hi. specialize (Hf i Hi). trace_solver.
  - destruct (caller s); [|done].
    destruct (results s); simplify_eq.
    split; simpl; [ | | |by rewrite count_close_snoc, Hc, Nat.add_0_r].
    + intros i Hi. destruct (Hq i Hi). trace_solver.
    + intros i w Hi Hw. destruct (Hp i w Hi Hw); trace_solver.
    + intros i Hi. specialize (Hf i Hi). trace_solver.
  - destruct (caller s); [|done].
    destruct (results s); [|done].
    destruct (closed s) eqn:Hclosed; simplify_eq.
    split; simpl; [ | | |by rewrite count_close_snoc, Hc, Nat.add_0_r, Hclosed].
    + intros i Hi. destruct (Hq i Hi). trace_solver.
    + intros i w Hi Hw. destruct (Hp i w Hi Hw); trace_solver.
    + intros i Hi. specialize (Hf i Hi). trace_solver.
Qed.

Lemma steps_tinv bufs tr s0 tr0 s :
  inv bufs s0 → tinv tr0 s0 → steps bufs tr s0 = Some s → tinv (tr0 ++ tr) s.
Proof.
  revert s0 tr0. induction tr as [|a tr IH]; intros s0 tr0 Hinv Ht Hs; simplify_eq/=.
  - by rewrite app_nil_r.
  - destruct (step bufs a s0) as [s1|] eqn:Hstep; [|done].
    rewrite (assoc_L (++) tr0 [a] tr : tr0 ++ a :: tr = (tr0 ++ [a]) ++ tr).
    eapply IH; [by eapply step_inv|by eapply step_tinv|done].
Qed.

(** Once every worker has called [wg.Done], no worker acts any more. *)
Lemma steps_all_finished bufs tr s s' :
  (∀ i w, workers s !! i = Some w → w = Finished) →
  steps bufs tr s = Some s' →
  ∀ i, (Send i ∉ tr) ∧ (Drop i ∉ tr) ∧ (Done i ∉ tr).
Proof.
  revert s. induction tr as [|a tr IH]; intros s Hall Hs i; simplify_eq/=.
  { split_and!; apply not_elem_of_nil. }
  destruct (step bufs a s) as [s1|] eqn:Hstep; [|done].
  assert (workers s1 = workers s ∧ ∀ j, a ≠ Send j ∧ a ≠ Drop j ∧ a ≠ Done j) as [Hws Ha].
  { unfold step in Hstep. destruct (panicked s); [done|].
    destruct a as [ |j|j|j| | | ];
      repeat (case_match; simplify_eq/=); try done;
      match goal with H : workers s !! _ = Some _ |- _ => by apply Hall in H end. }
  destruct (IH s1) with (i := i) as (?&?&?); [by rewrite Hws|done|].
  destruct (Ha i) as (?&?&?).
  rewrite !not_elem_of_cons. intuition congruence.
Qed.

(** C8.  In every run of the metric-listing read the result channel is
    closed exactly once, by the supervisor's [Close]; when it is closed every
    worker has already passed its select (it has enqueued its buffer or has
    dropped it) and has reported to the completion handle; no worker acts
    after the close; and in no reachable state is the channel closed while a
    worker could still send on it. *)
Theorem close_once_after_all_workers (bufs : list string) (ctx0 : bool) (sched : list action) :
  length (filter (λ a, a = Close) (execute bufs ctx0 sched).1) = 1
  ∧ (∀ pre post, (execute bufs ctx0 sched).1 = pre ++ Close :: post →
       (∀ i, i < length bufs → (Send i ∈ pre ∨ Drop i ∈ pre) ∧ Done i ∈ pre)
       ∧ (∀ i, (Send i ∉ post) ∧ (Drop i ∉ post) ∧ (Done i ∉ post)))
  ∧ (∀ tr s, steps bufs tr (init (length bufs) ctx0) = Some s →
       closed s = true → ∀ i w, workers s !! i = Some w → w = Finished).
Proof.
  destruct (execute_spec bufs ctx0 sched) as (Hsteps & Hinv & Hret).
  pose proof (steps_tinv _ _ _ [] _ (init_inv bufs ctx0) (init_tinv _ ctx0) Hsteps) as Ht.
  simpl in Ht. split_and!.
  - rewrite (tinv_close _ _ Ht).
    by destruct (inv_ret _ _ Hinv _ _ Hret) as (_ & _ & -> & _).
  - intros pre post Htr. rewrite Htr in Hsteps.
    rewrite steps_app in Hsteps.
    destruct (steps bufs pre (init (length bufs) ctx0)) as [s1|] eqn:Hpre; [|done].
    simpl in Hsteps.
    destruct (step bufs Close s1) as [s2|] eqn:Hclose; [|done].
    assert (inv bufs s1) as Hinv1 by (eapply steps_inv; [apply init_inv|done]).
    pose proof (steps_tinv _ _ _ [] _ (init_inv bufs ctx0) (init_tinv _ ctx0) Hpre) as Ht1.
    simpl in Ht1.
    assert (wg s1 = 0 ∧ workers s2 = workers s1) as [Hwg Hws].
    { unfold step in Hclose. rewrite (inv_panic _ _ Hinv1) in Hclose.
      destruct (wg s1); [|done]. by destruct (closed s1); simplify_eq. }
    assert (∀ i w, workers s1 !! i = Some w → w = Finished) as Hall.
    { intros i w. by apply inv_closed_finished with (bufs := bufs). }
    split.
    + intros i Hi.
      destruct (lookup_lt_is_Some_2 (workers s1) i) as [w Hw].
      { by rewrite (inv_len _ _ Hinv1). }
      pose proof (Hall i w Hw) as ->. split.
      * by apply (tinv_passed _ _ Ht1 i Finished).
      * by apply (tinv_finished _ _ Ht1).
    + eapply steps_all_finished; [|done]. by rewrite Hws.
  - intros tr s Htr Hclosed i w Hw.
    assert (inv bufs s) as Hinvs by (eapply steps_inv; [apply init_inv|done]).
    eapply inv_closed_finished; [done| |done]. by apply (inv_closed _ _ Hinvs).
Qed.

Lemma close_once_after_all_workers_witness :
  (execute ["x"; "y"] false [Send 1]).1
    = [Send 1; Send 0; Done 0; Done 1] ++ Close :: [Recv; Recv; Return]
  ∧ (∀ i, i < 2 →
       (Send i ∈ [Send 1; Send 0; Done 0; Done 1] ∨ Drop i ∈ [Send 1; Send 0; Done 0; Done 1])
       ∧ Done i ∈ [Send 1; Send 0; Done 0; Done 1])
  ∧ steps ["x"; "y"] [Send 1; Send 0; Done 0; Done 1; Close] (init 2 false)
    = Some (mkPstate [Finished; Finished] 0 ["y"; "x"] true false "" Draining false)
  ∧ ∀ i w, [Finished; Finished] !! i = Some w → w = Finished.
Proof.
  pose proof (close_once_after_all_workers ["x"; "y"] false [Send 1]) as (_ & Hsplit & Hreach).
  split; [reflexivity|]. split.
  - apply (Hsplit [Send 1; Send 0; Done 0; Done 1] [Recv; Recv; Return]). reflexivity.
  - split; [reflexivity|].
    apply (Hreach [Send 1; Send 0; Done 0; Done 1; Close]
             (mkPstate [Finished; Finished] 0 ["y"; "x"] true false "" Draining false));
      reflexivity.
Defined.

End Read_properties.

(** ** printMetrics as the commands call it *)

Section Listing_properties.

Context {V Stamp : Type}.
Variable render : gmap string V → string.

Implicit Types (w : @World V Stamp) (f : mapperFunc).

(** A call of printMetrics returns, whatever the interleaving and whether or
    not the context is cancelled: with a nil error and the bytes of the
    buffers that arrived, which are buffers of distinct shards, and of all
    shards unless the context was cancelled. *)
Lemma printMetrics_returns f w :
  ∃ arrived w',
    printMetrics render f w = Some ((join arrived, None), w')
    ∧ arrived ⊆+ snapshots render f (shards w)
    ∧ (ctxDone w' = false → arrived ≡ₚ snapshots render f (shards w))
    ∧ shards w' = shards w ∧ events w' = events w.
Proof.
  unfold printMetrics.
  destruct (execute_spec (snapshots render f (shards w)) (ctxDone w) (hd [] (schedules w)))
    as (_ & Hinv & Hret).
  destruct (execute (snapshots render f (shards w)) (ctxDone w) (hd [] (schedules w)))
    as [tr s]. simpl in *.
  rewrite (inv_panic _ _ Hinv), Hret.
  destruct (inv_data _ _ Hinv) as (got & Hbuf & Hsub & Hperm).
  destruct (inv_ret _ _ Hinv _ _ Hret) as (_ & _ & Hclosed & Hres).
  assert (waiting (snapshots render f (shards w)) (workers s) = []) as Hwait.
  { apply waiting_none. intros i Hi.
    by pose proof (inv_closed_finished _ _ _ _ Hinv (inv_closed _ _ Hinv Hclosed) Hi). }
  rewrite Hres, Hwait, !app_nil_r in Hsub, Hperm.
  exists got, (set_ctxDone (cancelled s) (set_schedules (tail (schedules w)) w)).
  rewrite Hbuf. by split_and!.
Qed.

(** C2.  With one shard or more, printMetrics returns, whatever the
    interleaving of its goroutines (the next schedule of the world, which is
    arbitrary).  If the context is still not done when it returns, so that it
    was never cancelled, what it returns is the concatenation, in the order
    of arrival, of the buffers serialized by the workers: each shard's
    rendering once and whole, in some order. *)
Theorem printMetrics_every_shard_once f w :
  1 ≤ length (shards w) →
  ∃ out w',
    printMetrics render f w = Some ((out, None), w')
    ∧ (ctxDone w' = false →
       ∃ arrival, arrival ≡ₚ snapshots render f (shards w) ∧ out = join arrival).
Proof.
  intros _. destruct (printMetrics_returns f w) as (arrived & w' & Hrun & _ & Hperm & _).
  exists (join arrived), w'. split; [done|]. intros Hctx. exists arrived. auto.
Qed.

(** C3.  printMetrics returns a nil error for every context, selector and
    interleaving; it neither panics nor gets stuck, also when no shard at
    all has produced output.  What it returns is made of the buffers of some
    of the shards, each at most once.  A worker whose select takes the
    cancellation leaves the channel and the caller's buffer as they are. *)
Theorem printMetrics_never_fails f w :
  (∃ arrived w',
     printMetrics render f w = Some ((join arrived, None), w')
     ∧ arrived ⊆+ snapshots render f (shards w))
  ∧ (∀ bufs i s s', step bufs (Drop i) s = Some s' →
       cancelled s = true ∧ results s' = results s ∧ buf s' = buf s).
Proof.
  split.
  - destruct (printMetrics_returns f w) as (arrived & w' & Hrun & Hsub & _).
    eauto.
  - intros bufs i s s' Hstep. unfold step in Hstep.
    destruct (panicked s); [done|].
    destruct (workers s !! i) as [[]|]; try done.
    by destruct (cancelled s); simplify_eq.
Qed.

End Listing_properties.

Lemma printMetrics_every_shard_once_witness :
  1 ≤ length (shards (world0 [[Send 1; Send 0]]))
  ∧ ∃ out w',
      printMetrics show getCounters (world0 [[Send 1; Send 0]]) = Some ((out, None), w')
      ∧ (ctxDone w' = false →
         ∃ arrival, arrival ≡ₚ snapshots show getCounters (shards (world0 [[Send 1; Send 0]]))
                    ∧ out = join arrival).
Proof.
  split; [simpl; lia|].
  apply (printMetrics_every_shard_once show getCounters (world0 [[Send 1; Send 0]])).
  simpl. lia.
Defined.

Lemma printMetrics_never_fails_witness :
  step ["x"; "y"] (Drop 1) (init 2 true)
    = Some (mkPstate [Queued; Exited] 2 [] false true "" Draining false)
  ∧ cancelled (init 2 true) = true
  ∧ results (mkPstate [Queued; Exited] 2 [] false true "" Draining false) = results (init 2 true)
  ∧ buf (mkPstate [Queued; Exited] 2 [] false true "" Draining false) = buf (init 2 true).
Proof.
  split; [reflexivity|].
  apply (proj2 (printMetrics_never_fails show getCounters (world0 []))
           ["x"; "y"] 1 (init 2 true)).
  reflexivity.
Defined.

(** ** The command table and the session *)

Section Session_properties.

Context {V Stamp : Type}.
Variable render : gmap string V → string.
Variable fmt_v : Stamp → string.
Variable unknown_reply : string → string.

Implicit Types (w : @World V Stamp) (f : mapperFunc) (conn : Conn).

Lemma bind_Some {A B} (m : M A) (k : A → M B) w a w1 :
  m w = Some (a, w1) → (m ≫= k) w = k a w1.
Proof. intros H. unfold mbind, M_bind. by rewrite H. Qed.

Lemma bind_None {A B} (m : M A) (k : A → M B) w :
  m w = None → (m ≫= k) w = None.
Proof. intros H. unfold mbind, M_bind. by rewrite H. Qed.

(** Writing is total. *)
Lemma Write_total conn text w : ∃ w1, Write conn text w = Some ((), w1).
Proof. unfold Write. case_decide; by eexists. Qed.

(** A session on [pre ++ rest] is the handling of [pre], and then, unless a
    command of [pre] ended the loop, the session on [rest]. *)
Lemma Loop_lines_app (c : Cmd) pre rest w :
  Loop_lines unknown_reply c (pre ++ rest) w
  = match run_lines unknown_reply c pre w with
    | Some (None, w1) => Loop_lines unknown_reply c rest w1
    | Some (Some e, w1) => Some (Some e, w1)
    | None => None
    end.
Proof.
  revert w. induction pre as [|line pre IH]; intros w; [done|].
  simpl. destruct (Write_total (Out c) (Prompt c) w) as [w1 Hw1].
  rewrite !(bind_Some _ _ _ _ _ Hw1).
  destruct (one unknown_reply c line w1) as [[[e|] w2]|] eqn:Hone.
  - by rewrite !(bind_Some _ _ _ _ _ Hone).
  - rewrite !(bind_Some _ _ _ _ _ Hone). apply IH.
  - by rewrite !(bind_None _ _ _ Hone).
Qed.

Lemma commands_quit :
  commands render fmt_v !! "quit"
  = Some ((λ args, mret ("goodbye" +:+ LF, Some errClientQuit)) : @CmdFn V Stamp).
Proof. reflexivity. Qed.

Lemma one_quit (c : Cmd) line args w :
  Commands c = commands render fmt_v →
  String.words line = "quit" :: args →
  one unknown_reply c line w
  = Some (Some errClientQuit, set_events (events w ++ [EvWrite (fd (Out c)) ("goodbye" +:+ LF)]) w).
Proof.
  intros Hc Hwords. unfold one. rewrite Hwords, Hc.
  match goal with
  | |- context [@lookup ?K ?A ?M ?I ?k (commands render fmt_v)] =>
      replace (@lookup K A M I k (commands render fmt_v))
        with (Some ((λ args, mret ("goodbye" +:+ LF, Some errClientQuit)) : @CmdFn V Stamp))
        by (symmetry; apply commands_quit)
  end.
  reflexivity.
Qed.

(** C4.  The quit command answers the farewell line together with
    [errClientQuit].  In a session whose input has a quit line after lines
    [pre] that did not end it, the farewell is the last thing written, the
    loop ends with that error, nothing is logged, the connection is closed,
    and the lines after quit have no effect at all. *)
Theorem quit_ends_session conn pre line args post w w1 :
  incoming conn = pre ++ line :: post →
  String.words line = "quit" :: args →
  run_lines unknown_reply (console_of conn (commands render fmt_v)) pre w = Some (None, w1) →
  (∃ fn : @CmdFn V Stamp,
     commands render fmt_v !! "quit" = Some fn
     ∧ ∀ args' w', fn args' w' = Some (("goodbye" +:+ LF, Some errClientQuit), w'))
  ∧ Loop unknown_reply (console_of conn (commands render fmt_v)) w
    = Some (Some errClientQuit,
            set_events (events w1 ++ [EvWrite (fd conn) "console> ";
                                      EvWrite (fd conn) ("goodbye" +:+ LF)]) w1)
  ∧ serveConnection unknown_reply conn (commands render fmt_v) w
    = Some ((), set_events (events w1 ++ [EvWrite (fd conn) "console> ";
                                          EvWrite (fd conn) ("goodbye" +:+ LF);
                                          EvCloseConn (fd conn)]) w1).
Proof.
  intros Hin Hwords Hpre.
  assert (Loop unknown_reply (console_of conn (commands render fmt_v)) w
          = Some (Some errClientQuit,
                  set_events (events w1 ++ [EvWrite (fd conn) "console> ";
                                            EvWrite (fd conn) ("goodbye" +:+ LF)]) w1))
    as HLoop.
  { unfold Loop. change (In (console_of conn (commands render fmt_v))) with conn.
    rewrite Hin, Loop_lines_app, Hpre. simpl.
    rewrite (bind_Some _ _ _ () (set_events (events w1 ++ [EvWrite (fd conn) "console> "]) w1))
      by reflexivity.
    erewrite bind_Some; [|by eapply one_quit].
    simpl. by rewrite <- (assoc_L (++)). }
  split_and!.
  - eexists. split; [apply commands_quit|done].
  - done.
  - unfold serveConnection. fold (console_of conn (commands render fmt_v)).
    rewrite (bind_Some _ _ _ _ _ HLoop). simpl.
    unfold mbind, M_bind, mret, M_ret, Close_conn, emit. simpl.
    by rewrite <- (assoc_L (++)).
Qed.

(** C5.  Whatever the session loop ends with, serveConnection then closes
    the connection and touches nothing else; before that it logs the error
    exactly when the error is not nil and is none of [context.Canceled],
    [context.DeadlineExceeded] and [errClientQuit]. *)
Theorem serveConnection_logs_only_problems conn (cmds : gmap string (@CmdFn V Stamp)) w err w1 :
  Loop unknown_reply (console_of conn cmds) w = Some (err, w1) →
  ∃ logged,
    serveConnection unknown_reply conn cmds w
    = Some ((), set_events (events w1 ++ logged ++ [EvCloseConn (fd conn)]) w1)
    ∧ (err = None ∨ err = Some Canceled ∨ err = Some DeadlineExceeded
       ∨ err = Some errClientQuit → logged = [])
    ∧ (∀ e, err = Some e → e ≠ Canceled → e ≠ DeadlineExceeded → e ≠ errClientQuit →
         logged = [EvLog ("Problem with console connection: " +:+ error_text e)]).
Proof.
  intros HLoop. unfold serveConnection. fold (console_of conn cmds).
  rewrite (bind_Some _ _ _ _ _ HLoop).
  destruct err as [e|].
  - destruct (decide (e ≠ Canceled ∧ e ≠ DeadlineExceeded ∧ e ≠ errClientQuit))
      as [(H1 & H2 & H3)|Hno].
    + exists [EvLog ("Problem with console connection: " +:+ error_text e)].
      split_and!.
      * unfold mbind, M_bind, Infof, Close_conn, emit. simpl.
        by rewrite <- (assoc_L (++)).
      * intros [?|[?|[?|?]]]; simplify_eq.
      * by intros ? [= <-] _ _ _.
    + exists []. split_and!.
      * done.
      * done.
      * intros ? [= <-] ???. by destruct Hno.
  - exists []. split_and!; [done|done|]. by intros ? [=].
Qed.

(** The delete on the world is total: it changes the shards only and
    returns the count of [delete_run]. *)
Lemma ConsoleServer_delete_eq keys f w :
  ConsoleServer_delete keys f w
  = Some (wrap32 (N.of_nat (length (shards w)) * N.of_nat (length keys)),
          set_shards (cleaned keys f <$> shards w) w).
Proof.
  unfold ConsoleServer_delete.
  by rewrite delete_run_fair by (unfold fair_order; reflexivity).
Qed.

(** C7.  Each of delcounters, deltimers, delgauges and delsets is in the
    command table, and on every argument list and world it answers, with a
    nil error, the line "deleted N <kind>" where N is the decimal rendering
    of the count that ConsoleServer.delete returned for that kind. *)
Theorem delete_command_response f args w :
  ∃ (fn : @CmdFn V Stamp) n w',
    commands render fmt_v !! ("del" +:+ kind_name f) = Some fn
    ∧ ConsoleServer_delete args f w = Some (n, w')
    ∧ fn args w
      = Some (("deleted " +:+ fmt_d n +:+ " " +:+ kind_name f +:+ LF, None), w').
Proof.
  pose proof (ConsoleServer_delete_eq args f w) as Hdel.
  destruct f; eexists _, _, _; (split; [reflexivity|]); (split; [exact Hdel|]);
    unfold mbind, M_bind; cbv beta iota delta [snd]; rewrite Hdel; reflexivity.
Qed.

(** C9.  The help command answers a fixed text; the names that text lists
    are stats, counters, timers, gauges, delcounters, deltimers, delgauges
    and quit, every one of them a command of the table; sets and delsets are
    commands of the table too, and the text does not list them. *)
Theorem help_omits_sets :
  (∃ fn : @CmdFn V Stamp,
     commands render fmt_v !! "help" = Some fn
     ∧ ∀ args w, fn args w = Some ((help_text, None), w))
  ∧ help_listed = ["stats"; "counters"; "timers"; "gauges";
                   "delcounters"; "deltimers"; "delgauges"; "quit"]
  ∧ (∀ name, name ∈ help_listed → is_Some (commands render fmt_v !! name))
  ∧ ("sets" ∉ help_listed) ∧ ("delsets" ∉ help_listed)
  ∧ is_Some (commands render fmt_v !! "sets")
  ∧ is_Some (commands render fmt_v !! "delsets").
Proof.
  assert (help_listed = ["stats"; "counters"; "timers"; "gauges";
                         "delcounters"; "deltimers"; "delgauges"; "quit"]) as Hl
    by reflexivity.
  split_and!.
  - eexists. split; [reflexivity|done].
  - done.
  - intros name Hname. rewrite Hl in Hname.
    repeat (apply elem_of_cons in Hname as [->|Hname]; [by eexists|]).
    by apply elem_of_nil in Hname.
  - rewrite Hl. intros Hin.
    repeat (apply elem_of_cons in Hin as [?|Hin]; [done|]).
    by apply elem_of_nil in Hin.
  - rewrite Hl. intros Hin.
    repeat (apply elem_of_cons in Hin as [?|Hin]; [done|]).
    by apply elem_of_nil in Hin.
  - by eexists.
  - by eexists.
Qed.

End Session_properties.

Lemma quit_ends_session_witness :
  serveConnection unknown0 (conn0 (pre0 ++ ["quit now"; "counters"]) None) cmds0 (world0 [])
  = Some ((), set_events (events after_pre0 ++ [EvWrite 4 "console> ";
                                                 EvWrite 4 ("goodbye" +:+ LF);
                                                 EvCloseConn 4]) after_pre0).
Proof.
  refine (proj2 (proj2 (quit_ends_session show fmt_v0 unknown0
            (conn0 (pre0 ++ ["quit now"; "counters"]) None)
            pre0 "quit now" ["now"] ["counters"] (world0 []) after_pre0 _ _ _)));
    reflexivity.
Defined.

Lemma serveConnection_logs_only_problems_witness :
  Loop unknown0 (console_of (conn0 [] (Some (OtherError "EOF"))) cmds0) (world0 [])
  = Some (Some (OtherError "EOF"), set_events [EvWrite 4 "console> "] (world0 []))
  ∧ ∃ logged,
      serveConnection unknown0 (conn0 [] (Some (OtherError "EOF"))) cmds0 (world0 [])
      = Some ((), set_events ([EvWrite 4 "console> "] ++ logged ++ [EvCloseConn 4])
                             (set_events [EvWrite 4 "console> "] (world0 [])))
      ∧ (Some (OtherError "EOF") = None ∨ Some (OtherError "EOF") = Some Canceled
         ∨ Some (OtherError "EOF") = Some DeadlineExceeded
         ∨ Some (OtherError "EOF") = Some errClientQuit → logged = [])
      ∧ (∀ e, Some (OtherError "EOF") = Some e →
           e ≠ Canceled → e ≠ DeadlineExceeded → e ≠ errClientQuit →
           logged = [EvLog ("Problem with console connection: " +:+ error_text e)]).
Proof.
  split; [reflexivity|].
  apply (serveConnection_logs_only_problems unknown0
           (conn0 [] (Some (OtherError "EOF"))) cmds0 (world0 [])
           (Some (OtherError "EOF")) (set_events [EvWrite 4 "console> "] (world0 []))).
  reflexivity.
Defined.

(** ** The server *)

Section Server_properties.

Context {V Stamp : Type}.
Variable render : gmap string V → string.
Variable fmt_v : Stamp → string.

Implicit Types (w : @World V Stamp) (l : Listener) (pending : list (Conn + error)).

Lemma emit_eq (e : event) w : emit e w = Some ((), set_events (events w ++ [e]) w).
Proof. done. Qed.

(** The accept loop is total; all it does is start one session per accepted
    connection, and it returns exactly the first error of Accept. *)
Lemma accept_loop_spec (cmds : gmap string (@CmdFn V Stamp)) pending w :
  ∃ conns o,
    accept_loop cmds pending w
    = Some (o, set_events (events w ++ (EvGo ∘ fd <$> conns)) w)
    ∧ ((o = Blocked ∧ pending = inl <$> conns)
       ∨ (∃ err rest, o = Returns err ∧ pending = (inl <$> conns) ++ inr err :: rest)).
Proof.
  revert w. induction pending as [|[c|err] pending IH]; intros w.
  - exists [], Blocked. simpl. rewrite app_nil_r. split; [by destruct w|by left].
  - destruct (IH (set_events (events w ++ [EvGo (fd c)]) w)) as (conns & o & Hrun & Ho).
    exists (c :: conns), o. split.
    + simpl. unfold mbind, M_bind. rewrite emit_eq, Hrun. simpl.
      by rewrite <- (assoc_L (++)).
    + destruct Ho as [[-> ->]|(err & rest & -> & ->)]; [by left|right; by eauto].
  - exists [], (Returns err). simpl. rewrite app_nil_r. split; [by destruct w|].
    right. by exists err, pending.
Qed.

Lemma accept_loop_ctx (cmds : gmap string (@CmdFn V Stamp)) pending w b :
  accept_loop cmds pending (set_ctxDone b w)
  = (λ '(o, w'), (o, set_ctxDone b w')) <$> accept_loop cmds pending w.
Proof.
  revert w. induction pending as [|[c|err] pending IH]; intros w; [done| |done].
  simpl. unfold mbind, M_bind. rewrite !emit_eq.
  apply (IH (set_events (events w ++ [EvGo (fd c)]) w)).
Qed.

Lemma inl_prefix_inj (conns1 conns2 : list Conn) (e1 e2 : error) rest1 rest2 :
  (inl <$> conns1) ++ inr e1 :: rest1 = ((inl <$> conns2) ++ inr e2 :: rest2 : list (Conn + error)) →
  conns1 = conns2 ∧ e1 = e2.
Proof.
  revert conns2. induction conns1 as [|c conns1 IH]; intros [|c2 conns2] H;
    simplify_eq/=; [done|].
  destruct (IH conns2) as [-> ->]; done.
Qed.

Lemma inl_prefix_not_all (conns1 conns2 : list Conn) (e : error) rest :
  (inl <$> conns1 : list (Conn + error)) ≠ (inl <$> conns2) ++ inr e :: rest.
Proof.
  revert conns2. induction conns1 as [|c conns1 IH]; intros [|c2 conns2] H;
    simplify_eq/=. by eapply IH.
Qed.

(** C10.  Serve returns exactly when an Accept fails, and then with that
    error; whether its context is done makes no difference to what Serve
    returns or to the sessions it starts; and with a context that is done
    from the start and a listener whose Accept never fails, Serve accepts
    every connection and does not return. *)
Theorem Serve_ignores_context l w :
  (∀ err, (∃ w', Serve render fmt_v l w = Some (Returns err, w'))
          ↔ (∃ conns rest, backlog l = (inl <$> conns) ++ inr err :: rest))
  ∧ (∀ b, Serve render fmt_v l (set_ctxDone b w)
          = (λ '(o, w'), (o, set_ctxDone b w')) <$> Serve render fmt_v l w)
  ∧ (∀ conns, backlog l = inl <$> conns →
       Serve render fmt_v l (set_ctxDone true w)
       = Some (Blocked, set_events (events w ++ (EvGo ∘ fd <$> conns)) (set_ctxDone true w))).
Proof.
  unfold Serve. split_and!.
  - intros err.
    destruct (accept_loop_spec (commands render fmt_v) (backlog l) w)
      as (conns & o & Hrun & Ho).
    rewrite Hrun. split.
    + intros [w' [= -> _]].
      destruct Ho as [[? _]|(err' & rest & [= <-] & ->)]; [done|]. by eauto.
    + intros (conns' & rest' & Hb).
      destruct Ho as [[_ Hall]|(err' & rest & -> & Hb')].
      * rewrite Hall in Hb. by apply inl_prefix_not_all in Hb.
      * rewrite Hb' in Hb. apply inl_prefix_inj in Hb as [_ ->]. by eauto.
  - intros b. apply accept_loop_ctx.
  - intros conns Hb.
    destruct (accept_loop_spec (commands render fmt_v) (backlog l) (set_ctxDone true w))
      as (conns' & o & Hrun & Ho).
    rewrite Hrun.
    destruct Ho as [[-> Hall]|(err' & rest & _ & Hb')].
    + rewrite Hb in Hall. apply (inj (fmap inl)) in Hall as ->. done.
    + rewrite Hb in Hb'. by apply inl_prefix_not_all in Hb'.
Qed.

(** C6.  ListenAndServe listens once, on [Addr], or on ":8126" when [Addr]
    is the empty string; if that listen fails ListenAndServe returns the
    error of the listen and has done nothing else: no Accept, no session. *)
Theorem ListenAndServe_address (s : ConsoleServer) (net_Listen : string → Listener + error) w addr :
  addr = (if decide (Addr s = "") then ":8126" else Addr s) →
  (∃ o w' evs,
     ListenAndServe render fmt_v s net_Listen w = Some (o, w')
     ∧ events w' = events w ++ EvListen addr :: evs
     ∧ ∀ a, EvListen a ∉ evs)
  ∧ (∀ err, net_Listen addr = inr err →
       ListenAndServe render fmt_v s net_Listen w
       = Some (Returns err, set_events (events w ++ [EvListen addr]) w)).
Proof.
  intros ->. unfold ListenAndServe, DefaultConsoleAddr.
  set (addr := if decide (Addr s = "") then ":8126" else Addr s).
  unfold mbind, M_bind. rewrite emit_eq.
  destruct (net_Listen addr) as [l|err] eqn:Hl.
  - split; [|by intros ? [=]].
    unfold Serve.
    destruct (accept_loop_spec (commands render fmt_v) (backlog l)
                (set_events (events w ++ [EvListen addr]) w))
      as (conns & o & Hrun & _).
    rewrite Hrun. simpl in *.
    destruct o as [|err].
    + eexists _, _, (EvGo ∘ fd <$> conns). split; [done|]. simpl. split.
      * by rewrite <- (assoc_L (++)).
      * intros a (c & ? & _)%list_elem_of_fmap. done.
    + eexists _, _, ((EvGo ∘ fd <$> conns) ++ [EvCloseListener (laddr l)]).
      split; [done|]. simpl. split.
      * by rewrite <- !(assoc_L (++)).
      * intros a [(c & ? & _)%list_elem_of_fmap|?%list_elem_of_singleton]%elem_of_app;
          done.
  - split.
    + eexists _, _, []. split; [done|]. split; [done|].
      intros a. apply not_elem_of_nil.
    + by intros ? [= <-].
Qed.

End Server_properties.

Lemma ListenAndServe_address_witness :
  ":8126" = (if decide (Addr (mkConsoleServer "") = "") then ":8126" else Addr (mkConsoleServer ""))
  ∧ net0 [] "10.0.0.1:9" = inr (OtherError "listen: address already in use")
  ∧ ListenAndServe show fmt_v0 (mkConsoleServer "10.0.0.1:9") (net0 []) (world0 [])
    = Some (Returns (OtherError "listen: address already in use"),
            set_events (events (world0 []) ++ [EvListen "10.0.0.1:9"]) (world0 []))
  ∧ ∃ o w' evs,
      ListenAndServe show fmt_v0 (mkConsoleServer "") (net0 []) (world0 []) = Some (o, w')
      ∧ events w' = events (world0 []) ++ EvListen ":8126" :: evs
      ∧ ∀ a, EvListen a ∉ evs.
Proof.
  split; [reflexivity|]. split; [reflexivity|]. split.
  - apply (proj2 (ListenAndServe_address show fmt_v0 (mkConsoleServer "10.0.0.1:9")
                    (net0 []) (world0 []) "10.0.0.1:9" eq_refl)).
    reflexivity.
  - apply (proj1 (ListenAndServe_address show fmt_v0 (mkConsoleServer "")
                    (net0 []) (world0 []) ":8126" eq_refl)).
Defined.

Lemma Serve_ignores_context_witness :
  backlog (listener0 [inl (conn0 ["quit"] None); inl (mkConn 5 [] None)])
    = inl <$> [conn0 ["quit"] None; mkConn 5 [] None]
  ∧ Serve show fmt_v0 (listener0 [inl (conn0 ["quit"] None); inl (mkConn 5 [] None)])
      (set_ctxDone true (world0 []))
    = Some (Blocked, set_events (events (world0 []) ++ [EvGo 4; EvGo 5])
                                (set_ctxDone true (world0 []))).
Proof.
  split; [reflexivity|].
  apply (proj2 (proj2 (Serve_ignores_context show fmt_v0
           (listener0 [inl (conn0 ["quit"] None); inl (mkConn 5 [] None)]) (world0 [])))
           [conn0 ["quit"] None; mkConn 5 [] None]).
  reflexivity.
Defined.

(** ** The delete count on a concrete console *)

(** C1.  On two shards whose counters are {a: 5} and {b: 3}, deleting the
    keys a, b, a removes two entries, and deleting the absent key zzz removes
    none; the count that the code returns is 6 in the first case and 2 in the
    second, in either order of the workers, and the delcounters command
    reports these counts. *)
Theorem delete_count_is_not_removals :
  spec_removed_total ["a"; "b"; "a"] getCounters [shard0; shard1] = 2%N
  ∧ (delete_run [0; 1] ["a"; "b"; "a"] getCounters [shard0; shard1]).2 = 6%N
  ∧ (delete_run [1; 0] ["a"; "b"; "a"] getCounters [shard0; shard1]).2 = 6%N
  ∧ spec_removed_total ["zzz"] getCounters [shard0; shard1] = 0%N
  ∧ (delete_run [0; 1] ["zzz"] getCounters [shard0; shard1]).2 = 2%N
  ∧ (delete_run [0; 1] ["zzz"] getCounters [shard0; shard1]).1 = [shard0; shard1]
  ∧ (∃ fn, cmds0 !! "delcounters" = Some fn
       ∧ fst <$> fn ["a"; "b"; "a"] (world0 []) = Some ("deleted 6 counters" +:+ LF, None)
       ∧ fst <$> fn ["zzz"] (world0 []) = Some ("deleted 2 counters" +:+ LF, None)).
Proof.
  split_and!; try reflexivity.
  eexists. split_and!; reflexivity.
Qed.

Lemma help_omits_sets_witness :
  "quit" ∈ help_listed ∧ is_Some (cmds0 !! "quit").
Proof.
  assert ("quit" ∈ help_listed) as Hin.
  { apply list_elem_of_In. simpl. tauto. }
  split; [exact Hin|].
  exact (proj1 (proj2 (proj2 (help_omits_sets show fmt_v0))) "quit" Hin).
Defined.

(** ** The code on small inputs *)

Example delete_loop_counts_every_listing :
  delete_loop ["a"; "b"; "a"] ({["a" := 5%N]} : gmap string N) = (∅, 3%N).
Proof. reflexivity. Qed.

Example delete_run_removes_the_keys :
  (delete_run [0; 1] ["a"] getCounters [shard0; shard1]).1
  = [mkMetricMap ∅ ∅ ∅ ∅; shard1].
Proof. reflexivity. Qed.

Example printMetrics_in_worker_order :
  fst <$> printMetrics show getCounters (world0 [])
  = Some ("map[a=5]" +:+ LF +:+ "map[b=3]" +:+ LF, None).
Proof. reflexivity. Qed.

Example printMetrics_in_arrival_order :
  fst <$> printMetrics show getCounters (world0 [[Send 1; Send 0]])
  = Some ("map[b=3]" +:+ LF +:+ "map[a=5]" +:+ LF, None).
Proof. reflexivity. Qed.

Example printMetrics_cancelled_midway :
  fst <$> printMetrics show getCounters (world0 [[Send 1; Cancel; Drop 0]])
  = Some ("map[b=3]" +:+ LF, None).
Proof. reflexivity. Qed.

Example printMetrics_cancelled_before_any_output :
  fst <$> printMetrics show getCounters (set_ctxDone true (world0 [[Drop 0; Drop 1]]))
  = Some ("", None).
Proof. reflexivity. Qed.

Example printMetrics_no_shards :
  fst <$> printMetrics show getCounters (set_shards [] (world0 [])) = Some ("", None).
Proof. reflexivity. Qed.

Example session_delete_then_list :
  events <$> (snd <$> serveConnection unknown0 (conn0 ["delcounters a"; "counters"] None)
                        cmds0 (world0 []))
  = Some [EvWrite 4 "console> "; EvWrite 4 ("deleted 2 counters" +:+ LF);
          EvWrite 4 "console> "; EvWrite 4 ("map[]" +:+ LF +:+ "map[b=3]" +:+ LF);
          EvWrite 4 "console> "; EvCloseConn 4].
Proof. reflexivity. Qed.

(** Errors are told apart by identity, not by their text. *)
Example same_text_other_error_is_logged :
  events <$> (snd <$> serveConnection unknown0 (conn0 [] (Some (OtherError "client quit")))
                        cmds0 (world0 []))
  = Some [EvWrite 4 "console> ";
          EvLog "Problem with console connection: client quit"; EvCloseConn 4].
Proof. reflexivity. Qed.

Example Serve_returns_the_accept_error :
  (λ r, (r.1, events r.2)) <$>
    Serve show fmt_v0
      (listener0 [inl (conn0 [] None); inr (OtherError "accept: closed"); inl (mkConn 5 [] None)])
      (set_ctxDone true (world0 []))
  = Some (Returns (OtherError "accept: closed"), [EvGo 4]).
Proof. reflexivity. Qed.

(** * Further properties *)

(** ** The delete path: count, order, effect on the shards *)

Section Delete_effects.

Context {V : Type}.
Implicit Types (m : @MetricMap V) (d : list (@MetricMap V)) (c : gmap string V).

Lemma select_assign f m c : select f (assign f m c) = c.
Proof. by destruct f. Qed.

Lemma select_assign_ne f g m c : f ≠ g → select g (assign f m c) = select g m.
Proof. by destruct f, g. Qed.

Lemma assign_select f m : assign f m (select f m) = m.
Proof. by destruct f, m. Qed.

Lemma assign_assign f m c c' : assign f (assign f m c) c' = assign f m c'.
Proof. by destruct f. Qed.

Lemma lookup_delete_all keys c k :
  foldl (λ c k, Metrics_Delete k c) c keys !! k
  = if decide (k ∈ keys) then None else c !! k.
Proof.
  revert c. induction keys as [|k0 keys IH]; intros c; simpl.
  - done.
  - rewrite IH. unfold Metrics_Delete.
    destruct (decide (k ∈ keys)) as [Hin|Hnin].
    + rewrite decide_True; [done|]. by right.
    + destruct (decide (k = k0)) as [->|Hne].
      * rewrite lookup_delete_eq. rewrite decide_True; [done|]. by left.
      * rewrite lookup_delete_ne by done. rewrite decide_False; [done|].
        by intros [?|?]%elem_of_cons.
Qed.

Lemma delete_all_idem keys c :
  foldl (λ c k, Metrics_Delete k c) (foldl (λ c k, Metrics_Delete k c) c keys) keys
  = foldl (λ c k, Metrics_Delete k c) c keys.
Proof.
  apply map_eq. intros k. rewrite !lookup_delete_all. by destruct (decide (k ∈ keys)).
Qed.

Lemma cleaned_idem keys f m : cleaned keys f (cleaned keys f m) = cleaned keys f m.
Proof.
  unfold cleaned. by rewrite select_assign, assign_assign, delete_all_idem.
Qed.

Lemma cleaned_nil f m : cleaned [] f m = m.
Proof. unfold cleaned. simpl. apply assign_select. Qed.

Lemma length_delete_run order keys f d :
  fair_order order d → length (delete_run order keys f d).1 = length d.
Proof. intros Hfair. rewrite delete_run_fair by done. simpl. by rewrite length_fmap. Qed.

(** X1.  When every worker has run once, the count that delete returns is
    the number of shards times the number of listed keys, reduced modulo
    2^32; it does not depend on what the shards hold.  Below 2^32 it is that
    product itself. *)
Theorem delete_count_formula order keys f d :
  fair_order order d →
  (delete_run order keys f d).2
  = ((N.of_nat (length d) * N.of_nat (length keys)) mod 2 ^ 32)%N
  ∧ ((N.of_nat (length d) * N.of_nat (length keys) < 2 ^ 32)%N →
     (delete_run order keys f d).2 = N.of_nat (length d * length keys)).
Proof.
  intros Hfair. rewrite delete_run_fair by done. simpl. split; [done|].
  intros Hlt. rewrite wrap32_small by done. lia.
Qed.

(** X2.  The workers run concurrently, in no fixed order; the shards that
    delete leaves and the count it returns are the same for every order in
    which each worker runs once. *)
Theorem delete_order_irrelevant order1 order2 keys f d :
  fair_order order1 d → fair_order order2 d →
  delete_run order1 keys f d = delete_run order2 keys f d.
Proof. intros H1 H2. by rewrite !delete_run_fair. Qed.

(** X3.  After delete, in every shard, the selected collection holds none of
    the listed keys, and every other key has the value it had. *)
Theorem delete_removes_listed_keys order keys f d j m :
  fair_order order d → d !! j = Some m →
  ∃ m', (delete_run order keys f d).1 !! j = Some m'
        ∧ ∀ k, select f m' !! k
               = if decide (k ∈ keys) then None else select f m !! k.
Proof.
  intros Hfair Hj. rewrite delete_run_fair by done. simpl.
  exists (cleaned keys f m). split.
  - by rewrite list_lookup_fmap, Hj.
  - intros k. unfold cleaned. by rewrite select_assign, lookup_delete_all.
Qed.

(** X4.  Delete through one mapper leaves the collections of the three other
    kinds of every shard as they were, and the number of shards too. *)
Theorem delete_keeps_other_kinds order keys f g d :
  fair_order order d → f ≠ g →
  length (delete_run order keys f d).1 = length d
  ∧ select g <$> (delete_run order keys f d).1 = select g <$> d.
Proof.
  intros Hfair Hne. split; [by apply length_delete_run|].
  rewrite delete_run_fair by done. simpl.
  rewrite <- list_fmap_compose. apply list_fmap_ext. intros i m _. simpl.
  unfold cleaned. by apply select_assign_ne.
Qed.

(** X5.  Deleting the same keys a second time changes no shard, and yet
    returns the same count as the first time. *)
Theorem delete_twice order1 order2 keys f d :
  fair_order order1 d → fair_order order2 d →
  delete_run order2 keys f (delete_run order1 keys f d).1
  = delete_run order1 keys f d.
Proof.
  intros H1 H2.
  assert (fair_order order2 (delete_run order1 keys f d).1) as H2'.
  { unfold fair_order in *. by rewrite length_delete_run. }
  rewrite (delete_run_fair keys f order2 _ H2').
  rewrite (delete_run_fair keys f order1 d H1). simpl.
  rewrite length_fmap. f_equal.
  rewrite <- list_fmap_compose. apply list_fmap_ext. intros i m _. simpl.
  apply cleaned_idem.
Qed.

End Delete_effects.

Lemma delete_count_formula_witness :
  fair_order [1; 0] [shard0; shard1]
  ∧ (delete_run [1; 0] ["a"; "zzz"] getCounters [shard0; shard1]).2
    = ((N.of_nat (length [shard0; shard1]) * N.of_nat (length ["a"; "zzz"])) mod 2 ^ 32)%N
  ∧ ((N.of_nat (length [shard0; shard1]) * N.of_nat (length ["a"; "zzz"]) < 2 ^ 32)%N →
     (delete_run [1; 0] ["a"; "zzz"] getCounters [shard0; shard1]).2
     = N.of_nat (length [shard0; shard1] * length ["a"; "zzz"])).
Proof.
  assert (fair_order [1; 0] [shard0; shard1]) as Hfair.
  { unfold fair_order. simpl. apply Permutation_swap. }
  split; [exact Hfair|].
  apply (delete_count_formula [1; 0] ["a"; "zzz"] getCounters [shard0; shard1] Hfair).
Defined.

Lemma delete_order_irrelevant_witness :
  fair_order [1; 0] [shard0; shard1] ∧ fair_order [0; 1] [shard0; shard1]
  ∧ delete_run [1; 0] ["a"] getCounters [shard0; shard1]
    = delete_run [0; 1] ["a"] getCounters [shard0; shard1].
Proof.
  assert (fair_order [1; 0] [shard0; shard1]) as H1.
  { unfold fair_order. simpl. apply Permutation_swap. }
  assert (fair_order [0; 1] [shard0; shard1]) as H2.
  { unfold fair_order. simpl. reflexivity. }
  split; [exact H1|]. split; [exact H2|].
  apply (delete_order_irrelevant [1; 0] [0; 1] ["a"] getCounters [shard0; shard1] H1 H2).
Defined.

Lemma delete_removes_listed_keys_witness :
  fair_order [0; 1; 2] [shard0; shard1; shard2]
  ∧ [shard0; shard1; shard2] !! 2 = Some shard2
  ∧ ∃ m', (delete_run [0; 1; 2] ["a"; "b"] getCounters [shard0; shard1; shard2]).1 !! 2
          = Some m'
          ∧ ∀ k, select getCounters m' !! k
                 = if decide (k ∈ ["a"; "b"]) then None else select getCounters shard2 !! k.
Proof.
  assert (fair_order [0; 1; 2] [shard0; shard1; shard2]) as Hfair.
  { unfold fair_order. simpl. reflexivity. }
  split; [exact Hfair|]. split; [reflexivity|].
  apply (delete_removes_listed_keys [0; 1; 2] ["a"; "b"] getCounters
           [shard0; shard1; shard2] 2 shard2 Hfair).
  reflexivity.
Defined.

Lemma delete_keeps_other_kinds_witness :
  fair_order [0; 1; 2] [shard0; shard1; shard2] ∧ getCounters ≠ getSets
  ∧ length (delete_run [0; 1; 2] ["a"] getCounters [shard0; shard1; shard2]).1
    = length [shard0; shard1; shard2]
  ∧ select getSets <$> (delete_run [0; 1; 2] ["a"] getCounters [shard0; shard1; shard2]).1
    = select getSets <$> [shard0; shard1; shard2].
Proof.
  assert (fair_order [0; 1; 2] [shard0; shard1; shard2]) as Hfair.
  { unfold fair_order. simpl. reflexivity. }
  assert (getCounters ≠ getSets) as Hne by discriminate.
  split; [exact Hfair|]. split; [exact Hne|].
  apply (delete_keeps_other_kinds [0; 1; 2] ["a"] getCounters getSets
           [shard0; shard1; shard2] Hfair Hne).
Defined.

Lemma delete_twice_witness :
  fair_order [0; 1] [shard0; shard1] ∧ fair_order [1; 0] [shard0; shard1]
  ∧ delete_run [1; 0] ["a"] getCounters (delete_run [0; 1] ["a"] getCounters [shard0; shard1]).1
    = delete_run [0; 1] ["a"] getCounters [shard0; shard1].
Proof.
  assert (fair_order [0; 1] [shard0; shard1]) as H1.
  { unfold fair_order. simpl. reflexivity. }
  assert (fair_order [1; 0] [shard0; shard1]) as H2.
  { unfold fair_order. simpl. apply Permutation_swap. }
  split; [exact H1|]. split; [exact H2|].
  apply (delete_twice [0; 1] [1; 0] ["a"] getCounters [shard0; shard1] H1 H2).
Defined.

(** ** The fan-out / fan-in read: length of runs, progress, order of arrival *)

Section Read_runs.

Implicit Types (bufs : list string) (ws : list wstate) (s : pstate) (tr : list action).

Lemma steps_measure bufs tr s s' :
  inv bufs s → steps bufs tr s = Some s' → length tr + measure s' ≤ measure s.
Proof.
  revert s. induction tr as [|a tr IH]; intros s Hinv Hs; simplify_eq/=; [lia|].
  destruct (step bufs a s) as [s1|] eqn:Hstep; [|done].
  pose proof (step_measure _ _ _ _ Hinv Hstep).
  pose proof (IH s1 (step_inv _ _ _ _ Hinv Hstep) Hs). lia.
Qed.

Lemma measure_init n ctx0 :
  measure (init n ctx0) = 3 * n + 2 + (if ctx0 then 0 else 1).
Proof.
  unfold measure. simpl.
  assert (sum_list (weight <$> replicate n Queued) = 3 * n) as ->.
  { rewrite fmap_replicate, sum_list_replicate. simpl. lia. }
  destruct ctx0; lia.
Qed.

Lemma next_not_Cancel s a : next s = Some a → a ≠ Cancel.
Proof. unfold next. intros H ->. repeat case_match; simplify_eq. Qed.

Lemma sent_snoc bufs tr a :
  sent bufs (tr ++ [a])
  = sent bufs tr ++ match a with Send i => option_list (bufs !! i) | _ => [] end.
Proof.
  unfold sent. rewrite omap_app. f_equal. simpl.
  by destruct a as [ |i|i|i| | | ].
Qed.

Lemma init_sinv bufs n ctx0 : sinv bufs [] (init n ctx0).
Proof.
  split.
  - by exists [].
  - intros i Hi. by apply elem_of_nil in Hi.
Qed.

Lemma step_sinv bufs a s s' tr :
  inv bufs s → sinv bufs tr s → step bufs a s = Some s' → sinv bufs (tr ++ [a]) s'.
Proof.
  intros Hinv [(got & Hbuf & Hfifo) Hdrop] Hstep.
  pose proof (inv_panic _ _ Hinv) as Hpan.
  pose proof (inv_closed _ _ Hinv) as Hcl.
  unfold step in Hstep. rewrite Hpan in Hstep.
  destruct a as [ |i|i|i| | | ].
  - destruct (cancelled s); simplify_eq.
    split; simpl; [|done].
    exists got. by rewrite sent_snoc, app_nil_r.
  - destruct (workers s !! i) as [[]|] eqn:Hw; try done.
    destruct (bufs !! i) as [b|] eqn:Hb; try done.
    destruct (closed s) eqn:Hclosed.
    { by pose proof (inv_closed_finished _ _ _ _ Hinv (Hcl eq_refl) Hw). }
    case_decide; simplify_eq.
    split; simpl.
    + exists got. split; [done|].
      by rewrite sent_snoc, Hb, (assoc_L (++)), Hfifo.
    + intros j [?|?]%elem_of_snoc; [by apply (Hdrop j)|done].
  - destruct (workers s !! i) as [[]|] eqn:Hw; try done.
    destruct (cancelled s) eqn:Hc; simplify_eq.
    split; simpl.
    + exists got. by rewrite sent_snoc, app_nil_r.
    + done.
  - destruct (workers s !! i) as [[]|] eqn:Hw; try done.
    destruct (wg s) as [|n] eqn:Hn.
    { by pose proof (inv_closed_finished _ _ _ _ Hinv Hn Hw). }
    simplify_eq.
    split; simpl.
    + exists got. by rewrite sent_snoc, app_nil_r.
    + intros j [?|?]%elem_of_snoc; [by apply (Hdrop j)|done].
  - destruct (wg s); [|done].
    destruct (closed s); simplify_eq.
    split; simpl.
    + exists got. by rewrite sent_snoc, app_nil_r.
    + intros j [?|?]%elem_of_snoc; [by apply (Hdrop j)|done].
  - destruct (caller s); [|done].
    destruct (results s) as [|b rest] eqn:Hr; simplify_eq.
    split; simpl.
    + exists (got ++ [b]). rewrite join_snoc, Hbuf. split; [done|].
      by rewrite sent_snoc, app_nil_r, <- Hfifo, <- (assoc_L (++)).
    + intros j [?|?]%elem_of_snoc; [by apply (Hdrop j)|done].
  - destruct (caller s); [|done].
    destruct (results s) eqn:Hr; [|done].
    destruct (closed s); simplify_eq.
    split; simpl.
    + exists got. by rewrite sent_snoc, app_nil_r, Hr.
    + intros j [?|?]%elem_of_snoc; [by apply (Hdrop j)|done].
Qed.

Lemma steps_sinv bufs tr s0 tr0 s :
  inv bufs s0 → sinv bufs tr0 s0 → steps bufs tr s0 = Some s → sinv bufs (tr0 ++ tr) s.
Proof.
  revert s0 tr0. induction tr as [|a tr IH]; intros s0 tr0 Hinv Ht Hs; simplify_eq/=.
  - by rewrite app_nil_r.
  - destruct (step bufs a s0) as [s1|] eqn:Hstep; [|done].
    rewrite (assoc_L (++) tr0 [a] tr : tr0 ++ a :: tr = (tr0 ++ [a]) ++ tr).
    eapply IH; [by eapply step_inv|by eapply step_sinv|done].
Qed.

(** X6.  A call of printMetrics over N shards takes at most 3 N + 3 atomic
    actions, the environment's cancellation included, however they
    interleave: it cannot run for ever. *)
Theorem run_length_bound bufs ctx0 tr s :
  steps bufs tr (init (length bufs) ctx0) = Some s →
  length tr ≤ 3 * length bufs + 3.
Proof.
  intros Hs.
  pose proof (steps_measure _ _ _ _ (init_inv bufs ctx0) Hs) as Hm.
  rewrite measure_init in Hm. destruct ctx0; lia.
Qed.

(** X7.  As long as the caller of printMetrics has not returned, one of the
    call's own goroutines can take a step, with no help from a cancellation:
    the call cannot get stuck, not even when the channel is full or there are
    more workers than the channel holds. *)
Theorem run_never_stuck bufs ctx0 tr s :
  steps bufs tr (init (length bufs) ctx0) = Some s →
  caller s = Draining →
  ∃ a s', a ≠ Cancel ∧ step bufs a s = Some s'.
Proof.
  intros Hs Hcaller.
  assert (inv bufs s) as Hinv by (eapply steps_inv; [apply init_inv|done]).
  destruct (next s) as [a|] eqn:Hnext.
  - destruct (next_enabled bufs s a Hinv Hnext) as [s' Hstep].
    exists a, s'. split; [by eapply next_not_Cancel|done].
  - destruct (next_None s Hnext) as (out & err & Hret). congruence.
Qed.

(** X8.  When printMetrics returns, what it returns is exactly the buffers
    that were sent on the channel, in the order of the sends, and a nil
    error: the channel and the caller's loop neither reorder, nor lose, nor
    repeat a buffer. *)
Theorem output_is_sends_in_order bufs ctx0 tr s out err :
  steps bufs tr (init (length bufs) ctx0) = Some s →
  caller s = Returned out err →
  out = join (sent bufs tr) ∧ err = None.
Proof.
  intros Hs Hret.
  assert (inv bufs s) as Hinv by (eapply steps_inv; [apply init_inv|done]).
  destruct (inv_ret _ _ Hinv _ _ Hret) as (-> & -> & _ & Hres).
  destruct (steps_sinv _ _ _ [] _ (init_inv bufs ctx0) (init_sinv bufs _ ctx0) Hs)
    as [(got & Hbuf & Hfifo) _].
  simpl in Hfifo. rewrite Hres, app_nil_r in Hfifo. by rewrite Hbuf, Hfifo.
Qed.

(** X9.  No worker drops its buffer unless the context is done: in a run at
    whose end the context is still not done there is no drop, and once the
    caller has returned every worker has sent its buffer. *)
Theorem no_drop_without_cancel bufs ctx0 tr s :
  steps bufs tr (init (length bufs) ctx0) = Some s →
  cancelled s = false →
  (∀ i, Drop i ∉ tr)
  ∧ (∀ out err, caller s = Returned out err → ∀ i, i < length bufs → Send i ∈ tr).
Proof.
  intros Hs Hc.
  assert (inv bufs s) as Hinv by (eapply steps_inv; [apply init_inv|done]).
  pose proof (steps_sinv _ _ _ [] _ (init_inv bufs ctx0) (init_sinv bufs _ ctx0) Hs)
    as [_ Hdrop].
  pose proof (steps_tinv _ _ _ [] _ (init_inv bufs ctx0) (init_tinv _ ctx0) Hs) as Ht.
  simpl in *.
  assert (∀ i, Drop i ∉ tr) as Hnodrop.
  { intros i Hi. specialize (Hdrop i Hi). congruence. }
  split; [done|].
  intros out err Hret i Hi.
  destruct (inv_ret _ _ Hinv _ _ Hret) as (_ & _ & Hclosed & _).
  destruct (lookup_lt_is_Some_2 (workers s) i) as [w Hw].
  { by rewrite (inv_len _ _ Hinv). }
  pose proof (inv_closed_finished _ _ _ _ Hinv (inv_closed _ _ Hinv Hclosed) Hw) as ->.
  destruct (tinv_passed _ _ Ht i Finished Hw) as [?|Hd]; [done|done|].
  by destruct (Hnodrop i).
Qed.

End Read_runs.

(** ** The command table: what every command does to the world *)

Section Command_effects.

Context {V Stamp : Type}.
Variable render : gmap string V → string.
Variable fmt_v : Stamp → string.

Implicit Types (w : @World V Stamp) (f : mapperFunc).

Lemma set_shards_cleaned_nil f w : set_shards (cleaned [] f <$> shards w) w = w.
Proof.
  assert (cleaned [] f <$> shards w = shards w) as ->.
  { rewrite <- (list_fmap_id (shards w)) at 2.
    apply list_fmap_ext. intros i m _. apply cleaned_nil. }
  by destruct w.
Qed.

Lemma snapshots_cleaned_ne keys f g (d : list (@MetricMap V)) :
  f ≠ g → snapshots render g (cleaned keys f <$> d) = snapshots render g d.
Proof.
  intros Hne. unfold snapshots. rewrite <- list_fmap_compose.
  apply list_fmap_ext. intros i m _. simpl. unfold cleaned.
  by rewrite select_assign_ne.
Qed.

Lemma printMetrics_world f w r w' :
  printMetrics render f w = Some (r, w') →
  ∃ b l, w' = set_ctxDone b (set_schedules l w).
Proof.
  unfold printMetrics. destruct (execute _ _ _) as [tr s].
  destruct (panicked s); [done|]. destruct (caller s); [done|].
  intros [= <- <-]. by eexists _, _.
Qed.

(** What a command of the table does, name by name. *)
Lemma commands_run name (fn : @CmdFn V Stamp) args w :
  commands render fmt_v !! name = Some fn →
  ∃ resp err w',
    fn args w = Some ((resp, err), w')
    ∧ err = (if decide (name = "quit") then Some errClientQuit else None)
    ∧ events w' = events w
    ∧ length (shards w') = length (shards w)
    ∧ receiverStats w' = receiverStats w ∧ flusherStats w' = flusherStats w
    ∧ (name ∉ delete_commands → shards w' = shards w).
Proof.
  intros Hfn. unfold commands in Hfn. apply elem_of_list_to_map_2 in Hfn.
  repeat (apply elem_of_cons in Hfn as [[= -> ->]|Hfn]);
    [..|by apply elem_of_nil in Hfn].
  - by eexists _, _, w.
  - by eexists _, _, w.
  - destruct (printMetrics_returns render getCounters w) as (a & w' & Hrun & _ & _ & Hs & He).
    destruct (printMetrics_world _ _ _ _ Hrun) as (b & l & Hw'). rewrite Hrun.
    eexists _, _, w'. split_and!; try done; by rewrite ?Hs, ?Hw'.
  - destruct (printMetrics_returns render getTimers w) as (a & w' & Hrun & _ & _ & Hs & He).
    destruct (printMetrics_world _ _ _ _ Hrun) as (b & l & Hw'). rewrite Hrun.
    eexists _, _, w'. split_and!; try done; by rewrite ?Hs, ?Hw'.
  - destruct (printMetrics_returns render getGauges w) as (a & w' & Hrun & _ & _ & Hs & He).
    destruct (printMetrics_world _ _ _ _ Hrun) as (b & l & Hw'). rewrite Hrun.
    eexists _, _, w'. split_and!; try done; by rewrite ?Hs, ?Hw'.
  - destruct (printMetrics_returns render getSets w) as (a & w' & Hrun & _ & _ & Hs & He).
    destruct (printMetrics_world _ _ _ _ Hrun) as (b & l & Hw'). rewrite Hrun.
    eexists _, _, w'. split_and!; try done; by rewrite ?Hs, ?Hw'.
  - unfold mbind, M_bind. rewrite ConsoleServer_delete_eq.
    eexists _, _, _. split; [reflexivity|]. simpl. split_and!; try done.
    + by rewrite length_fmap.
    + intros Hn. destruct Hn. unfold delete_commands. set_solver.
  - unfold mbind, M_bind. rewrite ConsoleServer_delete_eq.
    eexists _, _, _. split; [reflexivity|]. simpl. split_and!; try done.
    + by rewrite length_fmap.
    + intros Hn. destruct Hn. unfold delete_commands. set_solver.
  - unfold mbind, M_bind. rewrite ConsoleServer_delete_eq.
    eexists _, _, _. split; [reflexivity|]. simpl. split_and!; try done.
    + by rewrite length_fmap.
    + intros Hn. destruct Hn. unfold delete_commands. set_solver.
  - unfold mbind, M_bind. rewrite ConsoleServer_delete_eq.
    eexists _, _, _. split; [reflexivity|]. simpl. split_and!; try done.
    + by rewrite length_fmap.
    + intros Hn. destruct Hn. unfold delete_commands. set_solver.
  - by eexists _, _, w.
Qed.

(** X10.  Every command of the table returns, on every argument list and
    in every world; the error it returns is nil, except for quit, which
    returns [errClientQuit].  No other command can end a session. *)
Theorem every_command_returns name (fn : @CmdFn V Stamp) args w :
  commands render fmt_v !! name = Some fn →
  ∃ resp err w',
    fn args w = Some ((resp, err), w')
    ∧ (name ≠ "quit" → err = None)
    ∧ (name = "quit" → err = Some errClientQuit).
Proof.
  intros Hfn.
  destruct (commands_run name fn args w Hfn) as (resp & err & w' & Hrun & Herr & _).
  exists resp, err, w'. split; [done|]. rewrite Herr.
  split; intros Hname; [by rewrite decide_False|by rewrite decide_True].
Qed.

(** X11.  No command writes to a connection, logs, or touches the stats of
    the receiver and the flusher by itself; no command changes the number of
    shards; and the shards themselves are changed by the four delete
    commands only. *)
Theorem commands_frame name (fn : @CmdFn V Stamp) args w r w' :
  commands render fmt_v !! name = Some fn →
  fn args w = Some (r, w') →
  events w' = events w
  ∧ receiverStats w' = receiverStats w ∧ flusherStats w' = flusherStats w
  ∧ length (shards w') = length (shards w)
  ∧ (name ∉ delete_commands → shards w' = shards w).
Proof.
  intros Hfn Hrun.
  destruct (commands_run name fn args w Hfn)
    as (resp & err & w1 & Hrun1 & _ & He & Hlen & Hr & Hfl & Hsh).
  rewrite Hrun in Hrun1. by simplify_eq.
Qed.

(** X12.  The listing command of each kind (counters, timers, gauges, sets)
    ignores its arguments and reads the collection of that kind: with a nil
    error it answers buffers of distinct shards rendered from that
    collection, and all of them if the context is not done. *)
Theorem listing_command_reads_its_kind f args w :
  ∃ (fn : @CmdFn V Stamp) arrived w',
    commands render fmt_v !! kind_name f = Some fn
    ∧ fn args w = Some ((join arrived, None), w')
    ∧ arrived ⊆+ snapshots render f (shards w)
    ∧ (ctxDone w' = false → arrived ≡ₚ snapshots render f (shards w)).
Proof.
  destruct (printMetrics_returns render f w) as (arrived & w' & Hrun & Hsub & Hperm & _).
  destruct f; eexists _, arrived, w'; (split; [reflexivity|]);
    cbv beta iota delta [snd]; by rewrite Hrun.
Qed.

(** X13.  A delete command without arguments deletes nothing: the count is
    0, the answer is "deleted 0 <kind>", and the world is unchanged. *)
Theorem delete_no_keys f w :
  ConsoleServer_delete [] f w = Some (0%N, w)
  ∧ ∃ fn : @CmdFn V Stamp,
      commands render fmt_v !! ("del" +:+ kind_name f) = Some fn
      ∧ fn [] w = Some (("deleted 0 " +:+ kind_name f +:+ LF, None), w).
Proof.
  assert (ConsoleServer_delete [] f w = Some (0%N, w)) as Hdel.
  { rewrite ConsoleServer_delete_eq, set_shards_cleaned_nil. simpl.
    by rewrite N.mul_0_r. }
  split; [done|].
  destruct f; eexists; (split; [reflexivity|]);
    unfold mbind, M_bind; cbv beta iota delta [snd]; rewrite Hdel; reflexivity.
Qed.

(** X14.  Deleting keys of one kind does not change what a listing of
    another kind returns. *)
Theorem delete_then_list_other_kind keys f g w n w1 :
  f ≠ g →
  ConsoleServer_delete keys f w = Some (n, w1) →
  fst <$> printMetrics render g w1 = fst <$> printMetrics render g w.
Proof.
  intros Hne Hdel. rewrite ConsoleServer_delete_eq in Hdel. simplify_eq.
  unfold printMetrics. simpl. rewrite snapshots_cleaned_ne by done.
  destruct (execute _ _ _) as [tr s].
  destruct (panicked s); [done|]. by destruct (caller s).
Qed.

(** X15.  After a delete, a listing of the same kind returns buffers each
    of which renders a collection that holds none of the deleted keys. *)
Theorem delete_then_list_same_kind keys f w n w1 :
  ConsoleServer_delete keys f w = Some (n, w1) →
  ∃ arrived w2,
    printMetrics render f w1 = Some ((join arrived, None), w2)
    ∧ ∀ b, b ∈ arrived →
        ∃ c, b = Fprintln render c ∧ ∀ k, k ∈ keys → c !! k = None.
Proof.
  intros Hdel. rewrite ConsoleServer_delete_eq in Hdel. simplify_eq.
  destruct (printMetrics_returns render f
              (set_shards (cleaned keys f <$> shards w) w))
    as (arrived & w2 & Hrun & Hsub & _).
  exists arrived, w2. split; [done|].
  intros b Hb. eapply elem_of_submseteq in Hb; [|exact Hsub].
  unfold snapshots in Hb. simpl in Hb.
  apply list_elem_of_fmap in Hb as (m' & -> & Hm').
  apply list_elem_of_fmap in Hm' as (m & -> & _).
  eexists. split; [done|].
  intros k Hk. unfold cleaned.
  by rewrite select_assign, lookup_delete_all, decide_True.
Qed.

End Command_effects.

(** ** The server: sessions started, listener closed *)

Section Server_effects.

Context {V Stamp : Type}.
Variable render : gmap string V → string.
Variable fmt_v : Stamp → string.

Implicit Types (w : @World V Stamp) (l : Listener) (pending : list (Conn + error)).

Lemma accept_loop_error (cmds : gmap string (@CmdFn V Stamp)) pending conns err rest w :
  pending = (inl <$> conns) ++ inr err :: rest →
  accept_loop cmds pending w
  = Some (Returns err, set_events (events w ++ (EvGo ∘ fd <$> conns)) w).
Proof.
  intros Hp. destruct (accept_loop_spec cmds pending w) as (conns' & o & Hrun & Ho).
  rewrite Hrun. destruct Ho as [[_ Hall]|(err' & rest' & -> & Hp')].
  - rewrite Hall in Hp. by apply inl_prefix_not_all in Hp.
  - rewrite Hp' in Hp. by apply inl_prefix_inj in Hp as [-> ->].
Qed.

Lemma accept_loop_all (cmds : gmap string (@CmdFn V Stamp)) pending conns w :
  pending = inl <$> conns →
  accept_loop cmds pending w
  = Some (Blocked, set_events (events w ++ (EvGo ∘ fd <$> conns)) w).
Proof.
  intros Hp. destruct (accept_loop_spec cmds pending w) as (conns' & o & Hrun & Ho).
  rewrite Hrun. destruct Ho as [[-> Hall]|(err' & rest' & _ & Hp')].
  - rewrite Hp in Hall. by apply (inj (fmap inl)) in Hall as ->.
  - rewrite Hp in Hp'. by apply inl_prefix_not_all in Hp'.
Qed.

(** X16.  When an Accept fails, Serve has started one session for each
    connection accepted before, in the order of acceptance, and has done
    nothing else: it closes none of them, does not wait for them, and does
    not look at what the listener would have accepted later. *)
Theorem Serve_starts_sessions_until_error l w conns err rest :
  backlog l = (inl <$> conns) ++ inr err :: rest →
  Serve render fmt_v l w
  = Some (Returns err, set_events (events w ++ (EvGo ∘ fd <$> conns)) w).
Proof. intros Hb. unfold Serve. by apply accept_loop_error with (rest := rest). Qed.

(** X17.  After a successful listen, ListenAndServe closes the listener
    exactly when Serve returns, as its last action, and returns Serve's
    error; as long as no Accept fails it neither returns nor closes the
    listener. *)
Theorem ListenAndServe_closes_listener (s : ConsoleServer)
    (net_Listen : string → Listener + error) w addr l :
  addr = (if decide (Addr s = "") then DefaultConsoleAddr else Addr s) →
  net_Listen addr = inl l →
  (∀ conns err rest, backlog l = (inl <$> conns) ++ inr err :: rest →
     ListenAndServe render fmt_v s net_Listen w
     = Some (Returns err,
             set_events (events w ++ [EvListen addr] ++ (EvGo ∘ fd <$> conns)
                                  ++ [EvCloseListener (laddr l)]) w))
  ∧ (∀ conns, backlog l = inl <$> conns →
       ListenAndServe render fmt_v s net_Listen w
       = Some (Blocked,
               set_events (events w ++ [EvListen addr] ++ (EvGo ∘ fd <$> conns)) w)).
Proof.
  intros -> Hl. unfold ListenAndServe.
  set (addr := if decide (Addr s = "") then DefaultConsoleAddr else Addr s) in *.
  unfold mbind, M_bind. rewrite emit_eq, Hl. unfold Serve. split.
  - intros conns err rest Hb.
    rewrite (accept_loop_error _ _ _ _ _ _ Hb). simpl.
    by rewrite <- !(assoc_L (++)).
  - intros conns Hb.
    rewrite (accept_loop_all _ _ _ _ Hb). simpl.
    by rewrite <- !(assoc_L (++)).
Qed.

End Server_effects.

(** ** Instances of the properties above *)

Lemma run_length_bound_witness :
  steps ["x"; "y"] [Send 1; Send 0; Done 0] (init (length ["x"; "y"]) false)
    = Some (mkPstate [Finished; Exited] 1 ["y"; "x"] false false "" Draining false)
  ∧ length [Send 1; Send 0; Done 0] ≤ 3 * length ["x"; "y"] + 3.
Proof.
  split; [reflexivity|].
  apply (run_length_bound ["x"; "y"] false [Send 1; Send 0; Done 0]
           (mkPstate [Finished; Exited] 1 ["y"; "x"] false false "" Draining false)).
  reflexivity.
Defined.

Lemma run_never_stuck_witness :
  steps bufs17 (Send <$> seq 0 16) (init (length bufs17) false) = Some full17
  ∧ caller full17 = Draining
  ∧ ∃ a s', a ≠ Cancel ∧ step bufs17 a full17 = Some s'.
Proof.
  split; [reflexivity|]. split; [reflexivity|].
  apply (run_never_stuck bufs17 false (Send <$> seq 0 16) full17); reflexivity.
Defined.

Lemma output_is_sends_in_order_witness :
  steps ["x"; "y"] [Send 1; Cancel; Drop 0; Done 0; Done 1; Close; Recv; Return]
        (init (length ["x"; "y"]) false)
    = Some (mkPstate [Finished; Finished] 0 [] true true "y" (Returned "y" None) false)
  ∧ "y" = join (sent ["x"; "y"]
                   [Send 1; Cancel; Drop 0; Done 0; Done 1; Close; Recv; Return])
  ∧ (None : option error) = None.
Proof.
  split; [reflexivity|].
  apply (output_is_sends_in_order ["x"; "y"] false
           [Send 1; Cancel; Drop 0; Done 0; Done 1; Close; Recv; Return]
           (mkPstate [Finished; Finished] 0 [] true true "y" (Returned "y" None) false)
           "y" None);
    reflexivity.
Defined.

Lemma no_drop_without_cancel_witness :
  steps ["x"; "y"] [Send 1; Send 0; Done 0; Done 1; Close; Recv; Recv; Return]
        (init (length ["x"; "y"]) false)
    = Some (mkPstate [Finished; Finished] 0 [] true false "yx" (Returned "yx" None) false)
  ∧ (∀ i, Drop i ∉ [Send 1; Send 0; Done 0; Done 1; Close; Recv; Recv; Return])
  ∧ (∀ out err,
       caller (mkPstate [Finished; Finished] 0 [] true false "yx" (Returned "yx" None) false)
       = Returned out err →
       ∀ i, i < length ["x"; "y"] →
            Send i ∈ [Send 1; Send 0; Done 0; Done 1; Close; Recv; Recv; Return]).
Proof.
  split; [reflexivity|].
  apply (no_drop_without_cancel ["x"; "y"] false
           [Send 1; Send 0; Done 0; Done 1; Close; Recv; Recv; Return]
           (mkPstate [Finished; Finished] 0 [] true false "yx" (Returned "yx" None) false));
    reflexivity.
Defined.

Lemma every_command_returns_witness :
  cmds0 !! "sets" = Some ((λ args, printMetrics show getSets) : @CmdFn N string)
  ∧ ∃ resp err w',
      printMetrics show getSets (world0 []) = Some ((resp, err), w')
      ∧ ("sets" ≠ "quit" → err = None)
      ∧ ("sets" = "quit" → err = Some errClientQuit).
Proof.
  split; [reflexivity|].
  apply (every_command_returns show fmt_v0 "sets"
           (λ args, printMetrics show getSets) ["ignored"] (world0 [])).
  reflexivity.
Defined.

Lemma commands_frame_witness :
  cmds0 !! "counters" = Some ((λ args, printMetrics show getCounters) : @CmdFn N string)
  ∧ printMetrics show getCounters (world0 [[Cancel]])
    = Some (("map[a=5]" +:+ LF +:+ "map[b=3]" +:+ LF, None), set_ctxDone true (world0 []))
  ∧ events (set_ctxDone true (world0 [])) = events (world0 [[Cancel]])
  ∧ receiverStats (set_ctxDone true (world0 [])) = receiverStats (world0 [[Cancel]])
  ∧ flusherStats (set_ctxDone true (world0 [])) = flusherStats (world0 [[Cancel]])
  ∧ length (shards (set_ctxDone true (world0 []))) = length (shards (world0 [[Cancel]]))
  ∧ ("counters" ∉ delete_commands →
     shards (set_ctxDone true (world0 [])) = shards (world0 [[Cancel]])).
Proof.
  split; [reflexivity|]. split; [reflexivity|].
  apply (commands_frame show fmt_v0 "counters"
           (λ args, printMetrics show getCounters) [] (world0 [[Cancel]])
           ("map[a=5]" +:+ LF +:+ "map[b=3]" +:+ LF, None) (set_ctxDone true (world0 [])));
    reflexivity.
Defined.

Lemma listing_command_reads_its_kind_witness :
  ∃ (fn : @CmdFn N string) arrived w',
    cmds0 !! kind_name getTimers = Some fn
    ∧ fn ["x"] (world0 []) = Some ((join arrived, None), w')
    ∧ arrived ⊆+ snapshots show getTimers (shards (world0 []))
    ∧ (ctxDone w' = false → arrived ≡ₚ snapshots show getTimers (shards (world0 []))).
Proof.
  apply (listing_command_reads_its_kind show fmt_v0 getTimers ["x"] (world0 [])).
Defined.

Lemma delete_then_list_other_kind_witness :
  getCounters ≠ getSets
  ∧ ConsoleServer_delete ["a"] getCounters (world0 [[Send 1]])
    = Some (2%N, set_shards [mkMetricMap ∅ ∅ ∅ ∅; shard1] (world0 [[Send 1]]))
  ∧ fst <$> printMetrics show getSets
              (set_shards [mkMetricMap ∅ ∅ ∅ ∅; shard1] (world0 [[Send 1]]))
    = fst <$> printMetrics show getSets (world0 [[Send 1]]).
Proof.
  assert (getCounters ≠ getSets) as Hne by discriminate.
  split; [exact Hne|]. split; [reflexivity|].
  apply (delete_then_list_other_kind show ["a"] getCounters getSets (world0 [[Send 1]])
           2%N (set_shards [mkMetricMap ∅ ∅ ∅ ∅; shard1] (world0 [[Send 1]])) Hne).
  reflexivity.
Defined.

Lemma delete_then_list_same_kind_witness :
  ConsoleServer_delete ["a"] getCounters (world0 [])
    = Some (2%N, set_shards [mkMetricMap ∅ ∅ ∅ ∅; shard1] (world0 []))
  ∧ ∃ arrived w2,
      printMetrics show getCounters (set_shards [mkMetricMap ∅ ∅ ∅ ∅; shard1] (world0 []))
      = Some ((join arrived, None), w2)
      ∧ ∀ b, b ∈ arrived →
          ∃ c, b = Fprintln show c ∧ ∀ k, k ∈ ["a"] → c !! k = None.
Proof.
  split; [reflexivity|].
  apply (delete_then_list_same_kind show ["a"] getCounters (world0 []) 2%N
           (set_shards [mkMetricMap ∅ ∅ ∅ ∅; shard1] (world0 []))).
  reflexivity.
Defined.

Lemma Serve_starts_sessions_until_error_witness :
  backlog (listener0 [inl (conn0 [] None); inr (OtherError "accept: closed");
                      inl (mkConn 5 [] None)])
    = (inl <$> [conn0 [] None]) ++ inr (OtherError "accept: closed") :: [inl (mkConn 5 [] None)]
  ∧ Serve show fmt_v0
      (listener0 [inl (conn0 [] None); inr (OtherError "accept: closed");
                  inl (mkConn 5 [] None)]) (world0 [])
    = Some (Returns (OtherError "accept: closed"),
            set_events (events (world0 []) ++ (EvGo ∘ fd <$> [conn0 [] None])) (world0 [])).
Proof.
  split; [reflexivity|].
  apply (Serve_starts_sessions_until_error show fmt_v0
           (listener0 [inl (conn0 [] None); inr (OtherError "accept: closed");
                       inl (mkConn 5 [] None)])
           (world0 []) [conn0 [] None] (OtherError "accept: closed")
           [inl (mkConn 5 [] None)]).
  reflexivity.
Defined.

Lemma ListenAndServe_closes_listener_witness :
  ":8126" = (if decide (Addr (mkConsoleServer "") = "") then DefaultConsoleAddr
             else Addr (mkConsoleServer ""))
  ∧ net0 [inl (conn0 [] None); inr (OtherError "accept: closed")] ":8126"
    = inl (listener0 [inl (conn0 [] None); inr (OtherError "accept: closed")])
  ∧ backlog (listener0 [inl (conn0 [] None); inr (OtherError "accept: closed")])
    = (inl <$> [conn0 [] None]) ++ inr (OtherError "accept: closed") :: []
  ∧ ListenAndServe show fmt_v0 (mkConsoleServer "")
      (net0 [inl (conn0 [] None); inr (OtherError "accept: closed")]) (world0 [])
    = Some (Returns (OtherError "accept: closed"),
            set_events (events (world0 []) ++ [EvListen ":8126"]
                          ++ (EvGo ∘ fd <$> [conn0 [] None])
                          ++ [EvCloseListener
                                (laddr (listener0 [inl (conn0 [] None);
                                                   inr (OtherError "accept: closed")]))])
                       (world0 [])).
Proof.
  split; [reflexivity|]. split; [reflexivity|]. split; [reflexivity|].
  apply (proj1 (ListenAndServe_closes_listener show fmt_v0 (mkConsoleServer "")
                  (net0 [inl (conn0 [] None); inr (OtherError "accept: closed")])
                  (world0 []) ":8126"
                  (listener0 [inl (conn0 [] None); inr (OtherError "accept: closed")])
                  eq_refl eq_refl)
           [conn0 [] None] (OtherError "accept: closed") []).
  reflexivity.
Defined.
